(** * robocluster: the device's event dispatch, send path and lifecycle

    A shallow embedding of [robocluster/device.py].  Python objects that
    are mutated through a reference (serial transports) live in an
    explicit object store; the asyncio event loop is the list of tasks
    created on it, each task a value of [Task]. *)

From stdpp Require Import gmap strings list.
From Stdlib Require Import ZArith Ascii String.

Local Open Scope string_scope.
Local Open Scope list_scope.

(** ** Python's [fnmatch]

    [fnmatch.fnmatch(name, pat)] normalises both strings with
    [os.path.normcase] (the identity on POSIX), turns [pat] into a regular
    expression with [translate], compiles it and asks [re.match] for a
    match of the whole of [name]: the expression is closed by an
    end-of-string anchor and [re.match] anchors at the start.  The
    regular expression is kept here as a list of its four kinds of
    fragment.  The library is the one of the Pythons [device.py] runs on
    (3.5 to 3.8: it passes [loop=] to [asyncio.Queue] and calls
    [asyncio.Task.all_tasks]); there the compilation raises [re.error]
    on a class with a range whose bounds are reversed. *)

Module Fnmatch.

Inductive frag : Type :=
  | FStar                                   (* [.*]  from [*]          *)
  | FAny                                    (* [.]   from [?]          *)
  | FSet (neg : bool) (stuff : list ascii)  (* a character class       *)
  | FLit (c : ascii).                       (* [re.escape(c)]          *)

(** The scan for the [j] that closes a bracket: [pat] is the text after
    the opening bracket.  A leading [!] and then a leading [\]] are
    stepped over, then the first [\]] closes the class.  The result is
    [pat[i:j]] and [pat[j+1:]], or [None] when [j] runs to the end. *)
Fixpoint until_close (pat : list ascii) : option (list ascii * list ascii) :=
  match pat with
  | [] => None
  | c :: pat' =>
      if Ascii.eqb c "]" then Some ([], pat')
      else match until_close pat' with
           | Some (stuff, rest) => Some (c :: stuff, rest)
           | None => None
           end
  end.

Definition skip_close (pat : list ascii) : option (list ascii * list ascii) :=
  match pat with
  | c :: pat' =>
      if Ascii.eqb c "]" then
        match until_close pat' with
        | Some (stuff, rest) => Some (c :: stuff, rest)
        | None => None
        end
      else until_close pat
  | [] => None
  end.

Definition close_bracket (pat : list ascii) : option (bool * list ascii * list ascii) :=
  match pat with
  | c :: pat' =>
      if Ascii.eqb c "!" then
        match skip_close pat' with
        | Some (stuff, rest) => Some (true, stuff, rest)
        | None => None
        end
      else
        match skip_close pat with
        | Some (stuff, rest) => Some (false, stuff, rest)
        | None => None
        end
  | [] => None
  end.

(** [translate]: the [while i < n] loop.  Every round consumes at least
    one character of the pattern, so [length pat] rounds are enough. *)
Fixpoint translate_loop (rounds : nat) (pat : list ascii) : list frag :=
  match rounds with
  | O => []
  | S rounds' =>
      match pat with
      | [] => []
      | c :: pat' =>
          if Ascii.eqb c "*" then FStar :: translate_loop rounds' pat'
          else if Ascii.eqb c "?" then FAny :: translate_loop rounds' pat'
          else if Ascii.eqb c "[" then
            match close_bracket pat' with
            | None => FLit "[" :: translate_loop rounds' pat'
            | Some (neg, stuff, rest) => FSet neg stuff :: translate_loop rounds' rest
            end
          else FLit c :: translate_loop rounds' pat'
      end
  end.

Definition translate (pat : list ascii) : list frag :=
  translate_loop (List.length pat) pat.

(** Membership in a character class as [re] reads its body: [lo-hi] is
    a range of character codes, every other character stands for itself
    (the library escapes the backslash and a leading caret).  No
    character is within bounds that are reversed; [re] does not get to ask, since
    it refuses such a class when it compiles it ([set_ok] below). *)
Definition code_le (a b : ascii) : bool :=
  (nat_of_ascii a <=? nat_of_ascii b)%nat.

Fixpoint set_accepts (stuff : list ascii) (c : ascii) : bool :=
  match stuff with
  | [] => false
  | lo :: stuff' =>
      match stuff' with
      | dash :: hi :: stuff'' =>
          if Ascii.eqb dash "-"
          then (code_le lo c && code_le c hi) || set_accepts stuff'' c
          else Ascii.eqb lo c || set_accepts stuff' c
      | _ => Ascii.eqb lo c || set_accepts stuff' c
      end
  end.

Definition frag_accepts (neg : bool) (stuff : list ascii) (c : ascii) : bool :=
  if neg then negb (set_accepts stuff c) else set_accepts stuff c.

(** [re.match] of the anchored expression against [name]. *)
Fixpoint re_match (re : list frag) : list ascii -> bool :=
  match re with
  | [] => fun name => match name with [] => true | _ :: _ => false end
  | FStar :: re' =>
      fix star (name : list ascii) : bool :=
        re_match re' name
        || match name with [] => false | _ :: name' => star name' end
  | FAny :: re' =>
      fun name => match name with [] => false | _ :: name' => re_match re' name' end
  | FSet neg stuff :: re' =>
      fun name =>
        match name with
        | [] => false
        | c :: name' => frag_accepts neg stuff c && re_match re' name'
        end
  | FLit l :: re' =>
      fun name =>
        match name with
        | [] => false
        | c :: name' => Ascii.eqb l c && re_match re' name'
        end
  end.

Definition fnmatchcase (name pat : string) : bool :=
  re_match (translate (list_ascii_of_string pat)) (list_ascii_of_string name).

Definition normcase (s : string) : string := s.

(** The answer of [fnmatch(name, pat)] for a pattern that compiles. *)
Definition fnmatch (name pat : string) : bool :=
  fnmatchcase (normcase name) (normcase pat).

(** [re.compile] on the body of a class: where the parser has read
    [lo], a dash and [hi], it raises "bad character range" when [hi] is
    below [lo]. *)
Fixpoint set_ok (stuff : list ascii) : bool :=
  match stuff with
  | [] => true
  | lo :: stuff' =>
      match stuff' with
      | dash :: hi :: stuff'' =>
          if Ascii.eqb dash "-"
          then code_le lo hi && set_ok stuff''
          else set_ok stuff'
      | _ => set_ok stuff'
      end
  end.

Definition frag_ok (f : frag) : bool :=
  match f with
  | FSet _ stuff => set_ok stuff
  | _ => true
  end.

(** Whether [re.compile(translate(pat))] goes through. *)
Definition compiles (pat : string) : bool :=
  forallb frag_ok (translate (list_ascii_of_string (normcase pat))).

Inductive error : Type :=
  | bad_character_range.      (* [re.error] *)

(** The call [fnmatch(name, pat)]: the pattern is compiled at every
    call (a failed compilation is not remembered), then matched. *)
Definition fnmatch_call (name pat : string) : error + bool :=
  if compiles pat then inr (fnmatch name pat) else inl bad_character_range.

End Fnmatch.

(** ** Values, packets and exceptions *)

(** The payload of a packet: what the wire encoding carries. *)
Inductive pyval : Type :=
  | PNone
  | PInt (z : Z)
  | PBool (b : bool)
  | PStr (s : string).

(** A packet is the dict [{'event': ..., 'data': ...}]. *)
Record Packet : Type := mkPacket { event : string; data : pyval }.

Inductive exn : Type :=
  | RuntimeError (msg : string)
  | AttributeError (msg : string)
  | Exception (msg : string).

(** A coroutine function (a handler or a task body) is known by the
    identity of its function object. *)
Definition coro : Type := nat.

(** Modelled from the spec: [as_coroutine] of [robocluster/util.py], which
    is not among the sources; it brings a plain or an asynchronous
    function to the one asynchronous calling form, and keeps here the
    identity of the function it wraps. *)
Definition as_coroutine (f : coro) : coro := f.

(** Modelled from the spec: [duration_to_seconds] of [robocluster/util.py],
    which is not among the sources; a duration is either a plain number
    of seconds or a structured value, kept here by the seconds it stands
    for, and both come out as seconds.  Time is counted in whole ticks. *)
Inductive duration : Type :=
  | Plain (seconds : Z)
  | Structured (seconds : Z).

Definition duration_to_seconds (d : duration) : Z :=
  match d with
  | Plain s => s
  | Structured s => s
  end.

(** ** Event registries

    [defaultdict(list)]: keys in insertion order, one entry per key. *)
Definition registry : Type := list (string * list coro).

Fixpoint registry_get (r : registry) (key : string) : option (list coro) :=
  match r with
  | [] => None
  | (k, cbs) :: r' => if String.eqb k key then Some cbs else registry_get r' key
  end.

(** [r[key].append(cb)]: a missing key is first bound to the empty list. *)
Fixpoint registry_append (r : registry) (key : string) (cb : coro) : registry :=
  match r with
  | [] => [(key, [cb])]
  | (k, cbs) :: r' =>
      if String.eqb k key then (k, cbs ++ [cb]) :: r'
      else (k, cbs) :: registry_append r' key cb
  end.

(** ** Objects *)

Definition loop_ref : Type := nat.
Definition ref : Type := nat.

(** Modelled from the spec: the serial transport class [SerialDevice] of
    [robocluster/serial.py], which is not among the sources.  The fields
    are those [device.py] reads, writes or passes to the constructor; a
    new transport starts with an empty registry of its own. *)
Record SerialDevice : Type := mkSerialDevice {
  usb_path : string;
  encoding : string;
  sd_loop : loop_ref;       (* [serial_device._loop] *)
  sd_events : registry      (* [serial_device.events] *)
}.

(** The coroutine objects handed to [create_task]. *)
Inductive Task : Type :=
  | SendTask                                          (* [self._send_task()]          *)
  | ReceiveTask                                       (* [self._receive_task()]       *)
  | SerialReadTask (sd : ref)                         (* [self._serial_read_task(sd)] *)
  | Callback (cb : coro) (ev : string) (d : pyval)    (* [callback(event, data)]      *)
  | Background (f : coro)                             (* [coro()] of [task]           *)
  | Every (f : coro) (dur : duration).                (* [_wrapper()] of [every]      *)

Record Device : Type := mkDevice {
  name : string;
  events : registry;
  _thread : option nat;                   (* the [Thread], or [None]     *)
  _loop : loop_ref;
  _send_queue : list Packet;              (* head is the oldest packet    *)
  _serial_devices : gmap string ref
}.

(** A device together with what it shares with its surroundings: the
    serial transport objects, the tasks created on its event loop
    (oldest first), the packets its sender socket was asked to send
    (oldest first) and the number of threads made so far. *)
Record World : Type := mkWorld {
  dev : Device;
  store : gmap ref SerialDevice;
  tasks : list Task;
  sent : list Packet;
  threads : nat
}.

Definition set_events (d : Device) (r : registry) : Device :=
  mkDevice (name d) r (_thread d) (_loop d) (_send_queue d) (_serial_devices d).

Definition set_thread (d : Device) (t : option nat) : Device :=
  mkDevice (name d) (events d) t (_loop d) (_send_queue d) (_serial_devices d).

Definition set_send_queue (d : Device) (q : list Packet) : Device :=
  mkDevice (name d) (events d) (_thread d) (_loop d) q (_serial_devices d).

Definition set_serial_devices (d : Device) (m : gmap string ref) : Device :=
  mkDevice (name d) (events d) (_thread d) (_loop d) (_send_queue d) m.

Definition set_dev (w : World) (d : Device) : World :=
  mkWorld d (store w) (tasks w) (sent w) (threads w).

Definition set_store (w : World) (s : gmap ref SerialDevice) : World :=
  mkWorld (dev w) s (tasks w) (sent w) (threads w).

(** [self._loop.create_task(t)] *)
Definition create_task (w : World) (t : Task) : World :=
  mkWorld (dev w) (store w) (tasks w ++ [t]) (sent w) (threads w).

(** [__init__]: no events, no thread, an empty queue, no serial devices;
    the group only picks the address of the two sockets. *)
Definition init (nm : string) (loop : loop_ref) : World :=
  mkWorld (mkDevice nm [] None loop [] ∅) ∅ [] [] 0.

(** What a call hands back to its caller. *)
Inductive awaitable : Type :=
  | QueuePut (p : Packet)       (* [self._send_queue.put(packet)] *)
  | Sleep (seconds : Z).        (* [asyncio.sleep(seconds)]       *)

Inductive outcome : Type :=
  | Returned                    (* the call returned [None] or its argument *)
  | Awaitable (a : awaitable)   (* the call returned an awaitable           *)
  | Object (r : ref)            (* the call returned an object              *)
  | Raised (e : exn)            (* the call raised                          *)
  | Joining (th : nat).         (* the caller is held in [Thread.join]      *)

(** ** The public operations of [Device]

    Each takes the world before the call and gives the world after it
    with what the caller gets. *)

Definition publish (w : World) (topic : string) (d : pyval) : World * outcome :=
  let packet := mkPacket (name (dev w) ++ "/" ++ topic)%string d in
  (w, Awaitable (QueuePut packet)).

Definition on (w : World) (ev : string) (callback : coro) : World * outcome :=
  let coro := as_coroutine callback in
  (set_dev w (set_events (dev w) (registry_append (events (dev w)) ev coro)),
   Returned).

Definition task (w : World) (f : coro) : World * outcome :=
  let coro := as_coroutine f in
  (create_task w (Background coro), Returned).

(** [every(duration)(func)]: the task is the [_wrapper] closure over
    [func] and [duration]. *)
Definition every (w : World) (dur : duration) (func : coro) : World * outcome :=
  (create_task w (Every func dur), Returned).

Definition sleep (w : World) (dur : duration) : World * outcome :=
  let seconds := duration_to_seconds dur in
  (w, Awaitable (Sleep seconds)).

(** [link_serial(serial_device)]: the argument is a reference; the
    attribute assignment fails on an object that is no serial device. *)
Definition link_serial (w : World) (serial_device : ref) : World * outcome :=
  match store w !! serial_device with
  | None => (w, Raised (AttributeError "_loop"))
  | Some sd =>
      let sd' := mkSerialDevice (usb_path sd) (encoding sd) (_loop (dev w)) (sd_events sd) in
      let w' := set_store w (<[serial_device := sd']> (store w)) in
      (set_dev w' (set_serial_devices (dev w')
                     (<[usb_path sd' := serial_device]> (_serial_devices (dev w')))),
       Returned)
  end.

(** [create_serial(usb_path, encoding)]: a new object, bound under
    [usb_path] and handed back. *)
Definition create_serial (w : World) (path : string) (enc : string) : World * outcome :=
  let r := fresh (dom (store w)) in
  let sd := mkSerialDevice path enc (_loop (dev w)) [] in
  let w' := set_store w (<[r := sd]> (store w)) in
  (set_dev w' (set_serial_devices (dev w') (<[path := r]> (_serial_devices (dev w')))),
   Object r).

(** [_thread_target] up to [loop.run_forever()]: the send loop, the
    receive loop and one read loop for each serial device, in the order
    the map lists its values. *)
Definition _thread_target (w : World) : World :=
  let w1 := create_task w SendTask in
  let w2 := create_task w1 ReceiveTask in
  fold_left (fun acc serial_device => create_task acc (SerialReadTask serial_device))
            (map_to_list (_serial_devices (dev w2))).*2 w2.

Definition start (w : World) : World * outcome :=
  match _thread (dev w) with
  | Some _ => (w, Raised (RuntimeError "device already running"))
  | None =>
      let th := threads w in
      let w' := mkWorld (set_thread (dev w) (Some th)) (store w) (tasks w) (sent w) (S th) in
      (_thread_target w', Returned)
  end.

(** [stop]: the loop is asked to stop, [_thread_target] cancels and drains
    every task, the thread is joined and the handle cleared.  The drain
    is taken to go through: every task left on the loop ends at its
    cancellation. *)
Definition stop (w : World) : World * outcome :=
  match _thread (dev w) with
  | None => (w, Raised (RuntimeError "device not running"))
  | Some _ =>
      (mkWorld (set_thread (dev w) None) (store w) [] (sent w) (threads w), Returned)
  end.

Definition wait (w : World) : World * outcome :=
  match _thread (dev w) with
  | Some th => (w, Joining th)
  | None => (w, Returned)
  end.

(** The calls of the public interface, as data. *)
Inductive op : Type :=
  | Publish (topic : string) (d : pyval)
  | On (ev : string) (callback : coro)
  | TaskOp (f : coro)
  | EveryOp (dur : duration) (func : coro)
  | SleepOp (dur : duration)
  | CreateSerial (path enc : string)
  | LinkSerial (serial_device : ref)
  | Wait
  | Start
  | Stop.

Definition exec (w : World) (o : op) : World * outcome :=
  match o with
  | Publish topic d => publish w topic d
  | On ev callback => on w ev callback
  | TaskOp f => task w f
  | EveryOp dur func => every w dur func
  | SleepOp dur => sleep w dur
  | CreateSerial path enc => create_serial w path enc
  | LinkSerial sd => link_serial w sd
  | Wait => wait w
  | Start => start w
  | Stop => stop w
  end.

Definition exec_all (w : World) (os : list op) : World :=
  fold_left (fun acc o => fst (exec acc o)) os w.

(** The lifecycle state as the code keeps it: the thread handle. *)
Inductive lifecycle : Type := Stopped | Running.

Definition state (w : World) : lifecycle :=
  match _thread (dev w) with
  | None => Stopped
  | Some _ => Running
  end.

(** The lifecycle in the words of the specification: [start] takes a
    stopped device to running and fails otherwise, [stop] takes a running
    device to stopped and fails otherwise, no other call moves it. *)
Definition lifecycle_step (st : lifecycle) (o : op) : lifecycle :=
  match o, st with
  | Start, Stopped => Running
  | Stop, Running => Stopped
  | _, _ => st
  end.

Definition lifecycle_spec (st : lifecycle) (os : list op) : lifecycle :=
  fold_left lifecycle_step os st.

(** What a call attaches: the path and the transport bound to it. *)
Definition attached (w : World) (o : op) : option (string * ref) :=
  match o with
  | CreateSerial path enc =>
      match snd (create_serial w path enc) with
      | Object r => Some (path, r)
      | _ => None
      end
  | LinkSerial r =>
      match store w !! r with
      | Some sd => Some (usb_path sd, r)
      | None => None
      end
  | _ => None
  end.

(** The attachments of a run of calls, oldest first. *)
Fixpoint attachments (w : World) (os : list op) : list (string * ref) :=
  match os with
  | [] => []
  | o :: os' =>
      match attached w o with
      | Some a => a :: attachments (fst (exec w o)) os'
      | None => attachments (fst (exec w o)) os'
      end
  end.

(** The transport of the most recent attachment at [p], or [before] when
    there is none. *)
Fixpoint latest (p : string) (log : list (string * ref)) (before : option ref) : option ref :=
  match log with
  | [] => before
  | (q, r) :: log' => latest p log' (if String.eqb q p then Some r else before)
  end.

(** ** Awaiting

    [asyncio.Queue.put] on a queue without a size bound appends at the
    tail and completes at once. *)
Definition await_put (w : World) (p : Packet) : World :=
  set_dev w (set_send_queue (dev w) (_send_queue (dev w) ++ [p])).

(** ** Dispatch *)

(** [for callback in callbacks: self._loop.create_task(callback(event, data))] *)
Fixpoint schedule (w : World) (callbacks : list coro) (ev : string) (d : pyval) : World :=
  match callbacks with
  | [] => w
  | callback :: callbacks' => schedule (create_task w (Callback callback ev d)) callbacks' ev d
  end.

(** [for key, callbacks in self.events.items(): ...]: an exception of
    [fnmatch] leaves the loop with the tasks created so far and ends
    the task. *)
Fixpoint _receive_items (w : World) (items : registry) (ev : string) (d : pyval)
  : World * option Fnmatch.error :=
  match items with
  | [] => (w, None)
  | (key, callbacks) :: items' =>
      match Fnmatch.fnmatch_call ev key with
      | inl e => (w, Some e)
      | inr matched =>
          if negb matched then _receive_items w items' ev d
          else _receive_items (schedule w callbacks ev d) items' ev d
      end
  end.

(** One round of [_receive_task], for the packet the receiver gave. *)
Definition _receive_round (w : World) (packet : Packet) : World * option Fnmatch.error :=
  _receive_items w (events (dev w)) (event packet) (data packet).

(** The [while True] of [_receive_task], over the packets the receiver
    gives one after the other: the world when they are used up or the
    task has ended, and the exception it ended in. *)
Fixpoint _receive_run (w : World) (packets : list Packet) : World * option Fnmatch.error :=
  match packets with
  | [] => (w, None)
  | packet :: packets' =>
      match _receive_round w packet with
      | (w', Some e) => (w', Some e)
      | (w', None) => _receive_run w' packets'
      end
  end.

Definition _receive_task (w : World) (packets : list Packet) : World :=
  fst (_receive_run w packets).

(** One round of [_serial_read_task] inside the [async with], for the
    packet [ser.read_packet()] gave; [ser] is the transport object the
    task was made for, read where it lives. *)
Definition _serial_read_round (w : World) (serial_device : ref) (packet : Packet) : World :=
  match store w !! serial_device with
  | None => w
  | Some ser =>
      match registry_get (sd_events ser) (event packet) with
      | Some callbacks => schedule w callbacks (event packet) (data packet)
      | None => w
      end
  end.

Definition _serial_read_task (w : World) (serial_device : ref) (packets : list Packet)
  : World :=
  fold_left (fun acc packet => _serial_read_round acc serial_device packet) packets w.

(** ** The send loop

    [_send_task] between its two suspension points: at [AtGet] it waits
    in [self._send_queue.get()], at [AtSend p] in [self._sender.send(p)].
    [sent] of the world lists the packets [send] was called with,
    [completed] those whose [send] has finished. *)
Inductive send_pc : Type :=
  | AtGet
  | AtSend (p : Packet).

Record SendRun : Type := mkSendRun {
  sworld : World;
  pc : send_pc;
  completed : list Packet
}.

(** One resumption of the task; [None] when it stays suspended in [get]
    on an empty queue. *)
Definition _send_step (s : SendRun) : option SendRun :=
  match pc s with
  | AtGet =>
      match _send_queue (dev (sworld s)) with
      | [] => None
      | packet :: queue' =>
          let w := sworld s in
          let w' := mkWorld (set_send_queue (dev w) queue') (store w) (tasks w)
                            (sent w ++ [packet]) (threads w) in
          Some (mkSendRun w' (AtSend packet) (completed s))
      end
  | AtSend packet => Some (mkSendRun (sworld s) AtGet (completed s ++ [packet]))
  end.

Fixpoint _send_task (resumptions : nat) (s : SendRun) : SendRun :=
  match resumptions with
  | O => s
  | S n =>
      match _send_step s with
      | Some s' => _send_task n s'
      | None => s
      end
  end.

(** What happens around the send loop: a caller awaits a [publish], or
    the event loop resumes the send task. *)
Inductive action : Type :=
  | AwaitPublish (topic : string) (d : pyval)
  | ResumeSend.

Definition act (s : SendRun) (a : action) : SendRun :=
  match a with
  | AwaitPublish topic d =>
      match publish (sworld s) topic d with
      | (w, Awaitable (QueuePut p)) => mkSendRun (await_put w p) (pc s) (completed s)
      | (w, _) => mkSendRun w (pc s) (completed s)
      end
  | ResumeSend =>
      match _send_step s with
      | Some s' => s'
      | None => s
      end
  end.

Definition acts (s : SendRun) (l : list action) : SendRun := fold_left act l s.

(** The packets of the publish calls among [l], in call order. *)
Fixpoint published (nm : string) (l : list action) : list Packet :=
  match l with
  | [] => []
  | AwaitPublish topic d :: l' => mkPacket (nm ++ "/" ++ topic)%string d :: published nm l'
  | ResumeSend :: l' => published nm l'
  end.

(** At most one [send] is under way, and none while the task waits in
    [get]. *)
Definition one_at_a_time (s : SendRun) : Prop :=
  match pc s with
  | AtGet => sent (sworld s) = completed s
  | AtSend p => sent (sworld s) = completed s ++ [p]
  end.

(** The resumptions that empty the queue: two for each queued packet,
    and one more for a send under way. *)
Definition resumptions_needed (s : SendRun) : nat :=
  2 * List.length (_send_queue (dev (sworld s)))
  + match pc s with AtGet => 0 | AtSend _ => 1 end.

(** ** The periodic task

    What surrounds [_wrapper]: how long the [k]-th call of [func] runs,
    whether it raises, and how late the event loop resumes the task after
    the [k]-th sleep has run out. *)
Record Env : Type := mkEnv {
  fn_time : nat -> N;
  fn_raises : nat -> bool;
  lag : nat -> N
}.

Record Invocation : Type := mkInvocation {
  index : nat;
  began : Z;
  ended : Z;
  returned : bool
}.

(** [asyncio.sleep(seconds)] started at [now]: the task is resumed no
    sooner than [seconds] later, and at once when [seconds] is not
    positive. *)
Definition wake (now seconds : Z) (late : N) : Z :=
  (now + Z.max 0 seconds + Z.of_N late)%Z.

(** [rounds] turns of the [while True] of [_wrapper], the first being the
    [k]-th call of [func], at time [now].  An exception of [func] leaves
    the loop and ends the task. *)
Fixpoint _wrapper (env : Env) (dur : duration) (rounds : nat) (k : nat) (now : Z)
  : list Invocation :=
  match rounds with
  | O => []
  | S rounds' =>
      (* [coro = as_coroutine(func)], [await coro()] *)
      let done := (now + Z.of_N (fn_time env k))%Z in
      if fn_raises env k then [mkInvocation k now done false]
      else
        (* [await self.sleep(duration)] *)
        let seconds := duration_to_seconds dur in
        mkInvocation k now done true
        :: _wrapper env dur rounds' (S k) (wake done seconds (lag env k))
  end.

(** ** The event loop around the dispatch

    [inbox] holds the packets the receiver socket will give, in order;
    [finished] the callback tasks that are done, each with what it
    ended in; [receiver] the exception the receive task ended in, if it
    has ended.  The step of a task keeps an exception that is an
    [Exception] in the task; it raises a [SystemExit] or a
    [KeyboardInterrupt] again, out of [loop.run_forever()], after which
    nothing runs on the loop.  A callback runs in one piece, on the one
    thread of the loop: one that never gives the loop back holds
    everything else. *)
Inductive base_exn : Type :=
  | SystemExit
  | KeyboardInterrupt.

Inductive ending : Type :=
  | Returns
  | Raises (e : exn)
  | Exits (b : base_exn)
  | Hangs.

Definition behaviour : Type := coro -> string -> pyval -> ending.

Inductive loop_state : Type :=
  | Live
  | Halted (b : base_exn)
  | Held.

Record Loop : Type := mkLoop {
  lworld : World;
  inbox : list Packet;
  finished : list (Task * ending);
  receiver : option Fnmatch.error;
  lstate : loop_state
}.

Inductive move : Type :=
  | Receive                (* the receive task is resumed with a packet *)
  | RunTask (i : nat).     (* the [i]-th task of the loop is run         *)

Definition set_tasks (w : World) (ts : list Task) : World :=
  mkWorld (dev w) (store w) ts (sent w) (threads w).

Definition run_callback (body : behaviour) (l : Loop) (i : nat) (cb : coro)
    (ev : string) (d : pyval) : Loop :=
  let done := set_tasks (lworld l) (delete i (tasks (lworld l))) in
  let t := Callback cb ev d in
  match body cb ev d with
  | Hangs => mkLoop (lworld l) (inbox l) (finished l) (receiver l) Held
  | Exits b =>
      mkLoop done (inbox l) (finished l ++ [(t, Exits b)]) (receiver l) (Halted b)
  | e => mkLoop done (inbox l) (finished l ++ [(t, e)]) (receiver l) Live
  end.

Definition loop_move (body : behaviour) (l : Loop) (m : move) : Loop :=
  match lstate l with
  | Live =>
      match m with
      | Receive =>
          match receiver l, inbox l with
          | None, packet :: inbox' =>
              let r := _receive_round (lworld l) packet in
              mkLoop (fst r) inbox' (finished l) (snd r) Live
          | _, _ => l
          end
      | RunTask i =>
          match tasks (lworld l) !! i with
          | Some (Callback cb ev d) => run_callback body l i cb ev d
          | _ => l
          end
      end
  | _ => l
  end.

Definition loop_run (body : behaviour) (l : Loop) (ms : list move) : Loop :=
  fold_left (loop_move body) ms l.

(** Two loops are on the same course when they agree on everything
    but what the callbacks that ran ended in. *)
Definition same_course (l1 l2 : Loop) : Prop :=
  lworld l1 = lworld l2 /\ inbox l1 = inbox l2 /\
  receiver l1 = receiver l2 /\ lstate l1 = lstate l2 /\
  (finished l1).*1 = (finished l2).*1.

(** What a callback task ended in is what its own body gives. *)
Definition own_outcome (body : behaviour) (tr : Task * ending) : Prop :=
  exists cb ev d, tr = (Callback cb ev d, body cb ev d).

(** Handlers that return or end in an [Exception]. *)
Definition ordinary (body : behaviour) : Prop :=
  forall cb ev d, body cb ev d = Returns \/ exists e, body cb ev d = Raises e.

(** Handlers that all return. *)
Definition quiet : behaviour := fun _ _ _ => Returns.

(** The tasks a step created on the loop: those of [after] past the
    ones [before] already had. *)
Definition created_by (before after : World) : list Task :=
  drop (List.length (tasks before)) (tasks after).

(** The callback tasks for one registry entry. *)
Definition callbacks_for (ev : string) (d : pyval) (callbacks : list coro) : list Task :=
  map (fun cb => Callback cb ev d) callbacks.

(** The callback tasks for one packet over a whole registry, entry by
    entry. *)
Definition callbacks_of (r : registry) (packet : Packet) : list Task :=
  flat_map (fun '(key, callbacks) =>
              if Fnmatch.fnmatch (event packet) key
              then callbacks_for (event packet) (data packet) callbacks
              else []) r.

(** Every pattern of the registry compiles. *)
Definition registry_compiles (r : registry) : Prop :=
  Forall (fun kv => Fnmatch.compiles kv.1 = true) r.

(** ** Shell-glob matching, in the words of the specification

    [*] matches any run of characters, [?] exactly one character, a
    bracket class one character of its set, any other character itself;
    the pattern has to account for the whole string. *)

(** The characters of a class, by its body read from the left: a
    character, a dash and a character stand for the characters from the
    first to the second, any other character for itself. *)
Inductive class_has : list ascii -> ascii -> Prop :=
  | class_range lo hi rest c :
      (nat_of_ascii lo <= nat_of_ascii c)%nat ->
      (nat_of_ascii c <= nat_of_ascii hi)%nat ->
      class_has (lo :: "-"%char :: hi :: rest) c
  | class_past_range lo hi rest c :
      class_has rest c ->
      class_has (lo :: "-"%char :: hi :: rest) c
  | class_single c rest :
      (forall hi rest', rest <> "-"%char :: hi :: rest') ->
      class_has (c :: rest) c
  | class_past_single x rest c :
      (forall hi rest', rest <> "-"%char :: hi :: rest') ->
      class_has rest c ->
      class_has (x :: rest) c.

Definition bang (neg : bool) : list ascii :=
  if neg then ["!"%char] else [].

(** What follows an opening bracket that is closed: a [!] when the
    class is negated, the body of the class, which is not empty and has
    no closing bracket past its first character, the closing bracket,
    and the rest of the pattern. *)
Definition bracket (pat : list ascii) (neg : bool) (body rest : list ascii) : Prop :=
  pat = bang neg ++ body ++ "]"%char :: rest /\
  body <> [] /\
  ~ In "]"%char (tail body) /\
  (neg = false -> head body <> Some "!"%char).

Inductive glob : list ascii -> list ascii -> Prop :=
  | glob_end : glob [] []
  | glob_star pat run s :
      glob pat s -> glob ("*"%char :: pat) (run ++ s)
  | glob_one pat c s :
      glob pat s -> glob ("?"%char :: pat) (c :: s)
  | glob_class pat body rest c s :
      bracket pat false body rest ->
      class_has body c ->
      glob rest s -> glob ("["%char :: pat) (c :: s)
  | glob_class_not pat body rest c s :
      bracket pat true body rest ->
      ~ class_has body c ->
      glob rest s -> glob ("["%char :: pat) (c :: s)
  | glob_open pat s :
      (forall neg body rest, ~ bracket pat neg body rest) ->
      glob pat s -> glob ("["%char :: pat) ("["%char :: s)
  | glob_char c pat s :
      c <> "*"%char -> c <> "?"%char -> c <> "["%char ->
      glob pat s -> glob (c :: pat) (c :: s).

Definition glob_matches (pattern e : string) : Prop :=
  glob (list_ascii_of_string pattern) (list_ascii_of_string e).

(** ** [run]

    [start], then [wait].  While the caller is held in [wait] the
    thread may end, and [wait] and [run] return; or a
    [KeyboardInterrupt] may reach the caller, and [run] enters [stop],
    to raise the interrupt again after it.  [run] is followed here up to
    its call of [stop].  An exception that is no [KeyboardInterrupt]
    passes through [run] as it is. *)
Inductive run_event : Type :=
  | StillJoined                     (* nothing happens                 *)
  | ThreadEnded (rest : list Task)  (* the thread ends, [rest] pending *)
  | Interrupt.                      (* a [KeyboardInterrupt] arrives   *)

Inductive run_outcome : Type :=
  | RunRaised (e : exn)          (* an exception of [start]              *)
  | RunJoining (th : nat)        (* the caller is held in [wait]         *)
  | RunReturned                  (* [wait] returned                      *)
  | RunStopping (th : nat).      (* the interrupt is caught, [stop] next *)

Definition run (w : World) (ev : run_event) : World * run_outcome :=
  match start w with
  | (w1, Raised e) => (w1, RunRaised e)
  | (w1, _) =>
      match wait w1 with
      | (w2, Joining th) =>
          match ev with
          | StillJoined => (w2, RunJoining th)
          | ThreadEnded rest => (set_tasks w2 rest, RunReturned)
          | Interrupt => (w2, RunStopping th)
          end
      | (w2, _) => (w2, RunReturned)
      end
  end.

(** ** Predicates on registries and worlds *)

(** A character that [translate] takes for itself. *)
Definition plain_char (c : ascii) : bool :=
  negb (Ascii.eqb c "*") && negb (Ascii.eqb c "?") && negb (Ascii.eqb c "[").

(** A string without glob characters. *)
Definition plain (s : string) : bool :=
  forallb plain_char (list_ascii_of_string s).

(** Every transport bound in the registry is an object of the store,
    bound under its own path and carrying the device's event loop. *)
Definition serial_wf (w : World) : Prop :=
  forall p r, _serial_devices (dev w) !! p = Some r ->
    exists sd, store w !! r = Some sd /\ usb_path sd = p /\ sd_loop sd = _loop (dev w).

(** The ticks from the first call of [func] to the [i]-th: what the
    calls before took, the sleeps, and the lateness of the loop. *)
Fixpoint elapsed (env : Env) (dur : duration) (i : nat) : Z :=
  match i with
  | O => 0
  | S j => elapsed env dur j + Z.of_N (fn_time env j)
           + Z.max 0 (duration_to_seconds dur) + Z.of_N (lag env j)
  end%Z.

(** * Properties *)

(** ** [fnmatch] against the glob relation *)

Section FnmatchGlob.
Import Fnmatch.
#[local] Arguments Ascii.eqb : simpl never.

Lemma until_close_shorter pat stuff rest :
  until_close pat = Some (stuff, rest) ->
  (List.length rest < List.length pat)%nat.
Proof.
  revert stuff rest.
  induction pat as [|c pat IH]; intros stuff rest H; simpl in H; [discriminate|].
  destruct (Ascii.eqb c "]").
  - injection H as _ <-. simpl. lia.
  - destruct (until_close pat) as [[st rs]|] eqn:E; [|discriminate].
    injection H as _ <-. specialize (IH _ _ eq_refl). simpl. lia.
Qed.

Lemma skip_close_shorter pat stuff rest :
  skip_close pat = Some (stuff, rest) ->
  (List.length rest < List.length pat)%nat.
Proof.
  destruct pat as [|c pat]; unfold skip_close; [discriminate|].
  destruct (Ascii.eqb c "]") eqn:Ec.
  - destruct (until_close pat) as [[st rs]|] eqn:E; [|discriminate].
    intros H. injection H as _ <-.
    apply until_close_shorter in E. simpl. lia.
  - apply until_close_shorter.
Qed.

Lemma close_bracket_shorter pat neg stuff rest :
  close_bracket pat = Some (neg, stuff, rest) ->
  (List.length rest < List.length pat)%nat.
Proof.
  destruct pat as [|c pat]; unfold close_bracket; [discriminate|].
  destruct (Ascii.eqb c "!").
  - destruct (skip_close pat) as [[st rs]|] eqn:E; [|discriminate].
    intros H. injection H as _ _ <-.
    apply skip_close_shorter in E. simpl. lia.
  - destruct (skip_close (c :: pat)) as [[st rs]|] eqn:E; [|discriminate].
    intros H. injection H as _ _ <-.
    apply skip_close_shorter in E. exact E.
Qed.

Lemma translate_loop_enough n m pat :
  (List.length pat <= n)%nat -> (List.length pat <= m)%nat ->
  translate_loop n pat = translate_loop m pat.
Proof.
  revert m pat.
  induction n as [|n IH]; intros m pat Hn Hm.
  - destruct pat; simpl in Hn; [|lia]. destruct m; reflexivity.
  - destruct pat as [|c pat]; [destruct m; reflexivity|].
    destruct m as [|m]; simpl in Hn, Hm; [lia|].
    simpl.
    destruct (Ascii.eqb c "*"); [f_equal; apply IH; lia|].
    destruct (Ascii.eqb c "?"); [f_equal; apply IH; lia|].
    destruct (Ascii.eqb c "[").
    + destruct (close_bracket pat) as [[[neg stuff] rest]|] eqn:E.
      * apply close_bracket_shorter in E. f_equal; apply IH; lia.
      * f_equal; apply IH; lia.
    + f_equal; apply IH; lia.
Qed.

Lemma translate_nil : translate [] = [].
Proof. reflexivity. Qed.

Lemma translate_star pat : translate ("*"%char :: pat) = FStar :: translate pat.
Proof. reflexivity. Qed.

Lemma translate_one pat : translate ("?"%char :: pat) = FAny :: translate pat.
Proof. reflexivity. Qed.

Lemma translate_class pat neg stuff rest :
  close_bracket pat = Some (neg, stuff, rest) ->
  translate ("["%char :: pat) = FSet neg stuff :: translate rest.
Proof.
  intros E. unfold translate. simpl. rewrite E. f_equal.
  apply close_bracket_shorter in E.
  apply translate_loop_enough; lia.
Qed.

Lemma translate_open pat :
  close_bracket pat = None ->
  translate ("["%char :: pat) = FLit "[" :: translate pat.
Proof. intros E. unfold translate. simpl. rewrite E. reflexivity. Qed.

Lemma translate_char c pat :
  c <> "*"%char -> c <> "?"%char -> c <> "["%char ->
  translate (c :: pat) = FLit c :: translate pat.
Proof.
  intros H1 H2 H3. unfold translate. simpl.
  apply Ascii.eqb_neq in H1, H2, H3. rewrite H1, H2, H3. reflexivity.
Qed.

Lemma re_match_star re name :
  re_match (FStar :: re) name = true <->
  exists run s, name = run ++ s /\ re_match re s = true.
Proof.
  split.
  - induction name as [|c name IH]; simpl; intros H.
    + rewrite orb_false_r in H. exists [], []. auto.
    + apply orb_true_iff in H as [H|H].
      * exists [], (c :: name). auto.
      * destruct (IH H) as (run & s & -> & Hs).
        exists (c :: run), s. auto.
  - intros (run & s & -> & Hs).
    induction run as [|c run IH]; simpl.
    + destruct s; simpl in *; rewrite Hs; reflexivity.
    + simpl in IH. rewrite IH. apply orb_true_r.
Qed.

Lemma until_close_spec pat stuff rest :
  until_close pat = Some (stuff, rest) <->
  pat = stuff ++ "]"%char :: rest /\ ~ In "]"%char stuff.
Proof.
  split.
  - revert stuff. induction pat as [|c pat IH]; intros stuff; simpl; [done|].
    destruct (Ascii.eqb c "]") eqn:E.
    + apply Ascii.eqb_eq in E. subst c. intros [= <- <-]. simpl. tauto.
    + apply Ascii.eqb_neq in E.
      destruct (until_close pat) as [[st rs]|]; [|done].
      intros [= <- <-]. destruct (IH st eq_refl) as [-> Hn].
      split; [done|]. intros [H|H]; [congruence|done].
  - intros [-> Hn]. induction stuff as [|x stuff IH]; simpl.
    + reflexivity.
    + destruct (Ascii.eqb x "]") eqn:E.
      * apply Ascii.eqb_eq in E. subst x. exfalso. apply Hn. by left.
      * rewrite IH; [done|]. intros H. apply Hn. by right.
Qed.

Lemma skip_close_spec pat stuff rest :
  skip_close pat = Some (stuff, rest) <->
  pat = stuff ++ "]"%char :: rest /\ stuff <> [] /\ ~ In "]"%char (tail stuff).
Proof.
  destruct pat as [|c pat]; unfold skip_close.
  { split; [done|]. intros (H & _). by destruct stuff. }
  destruct (Ascii.eqb c "]") eqn:E.
  - apply Ascii.eqb_eq in E. subst c. split.
    + destruct (until_close pat) as [[st rs]|] eqn:Eu; [|done].
      intros [= <- <-]. apply until_close_spec in Eu as [-> Hn]. done.
    + intros (H & Hne & Hn). destruct stuff as [|x st]; [done|].
      simpl in H, Hn. injection H as <- ->.
      assert (until_close (st ++ "]"%char :: rest) = Some (st, rest)) as ->; [|done].
      by apply until_close_spec.
  - apply Ascii.eqb_neq in E. rewrite until_close_spec. split.
    + intros [H Hn]. split; [done|]. split.
      * intros ->. simpl in H. congruence.
      * intros Hin. apply Hn. destruct stuff; [done|]. by right.
    + intros (H & Hne & Hn). split; [done|].
      destruct stuff as [|x st]; [done|]. simpl in H, Hn.
      injection H as <- _. intros [Hx|Hin]; [congruence|done].
Qed.

Lemma close_bracket_spec pat neg stuff rest :
  close_bracket pat = Some (neg, stuff, rest) <-> bracket pat neg stuff rest.
Proof.
  unfold bracket. destruct pat as [|c pat]; unfold close_bracket.
  { split; [done|]. intros (H & Hne & _). destruct neg, stuff; done. }
  destruct (Ascii.eqb c "!") eqn:E.
  - apply Ascii.eqb_eq in E. subst c. split.
    + destruct (skip_close pat) as [[st rs]|] eqn:Es; [|done].
      intros [= <- <- <-]. apply skip_close_spec in Es as (-> & Hne & Hn).
      simpl. done.
    + intros (H & Hne & Hn & Hb). destruct neg; simpl in H.
      * injection H as ->.
        assert (skip_close (stuff ++ "]"%char :: rest) = Some (stuff, rest)) as ->;
          [|done].
        by apply skip_close_spec.
      * destruct stuff as [|x st]; [done|]. simpl in H. injection H as <- _.
        exfalso. by apply Hb.
  - apply Ascii.eqb_neq in E. split.
    + destruct (skip_close (c :: pat)) as [[st rs]|] eqn:Es; [|done].
      intros [= <- <- <-]. apply skip_close_spec in Es as (H & Hne & Hn).
      simpl. split; [done|]. split; [done|]. split; [done|].
      intros _. destruct st as [|x st]; [done|]. simpl in *.
      injection H as -> _. congruence.
    + intros (H & Hne & Hn & Hb). destruct neg; simpl in H.
      * injection H as -> _. done.
      * assert (skip_close (c :: pat) = Some (stuff, rest)) as ->; [|done].
        apply skip_close_spec. done.
Qed.

Lemma close_bracket_none pat :
  close_bracket pat = None <-> forall neg body rest, ~ bracket pat neg body rest.
Proof.
  split.
  - intros E neg body rest H. apply close_bracket_spec in H. congruence.
  - intros H. destruct (close_bracket pat) as [[[neg body] rest]|] eqn:E; [|done].
    apply close_bracket_spec in E. by apply H in E.
Qed.

Lemma code_le_spec a b :
  code_le a b = true <-> (nat_of_ascii a <= nat_of_ascii b)%nat.
Proof. unfold code_le. apply Nat.leb_le. Qed.

Lemma set_accepts_class_has stuff c :
  set_accepts stuff c = true <-> class_has stuff c.
Proof.
  remember (List.length stuff) as n eqn:Hn. revert stuff Hn.
  induction n as [n IH] using lt_wf_ind. intros stuff Hn.
  destruct stuff as [|lo stuff]; [split; [done|inversion 1]|].
  assert (Hrec : forall st, (List.length st <= List.length stuff)%nat ->
            set_accepts st c = true <-> class_has st c).
  { intros st Hle. eapply IH; [|reflexivity]. subst n. simpl. lia. }
  assert (Hsingle : (forall hi rest', stuff <> "-"%char :: hi :: rest') ->
            Ascii.eqb lo c || set_accepts stuff c = true <-> class_has (lo :: stuff) c).
  { intros Hno. rewrite orb_true_iff, Ascii.eqb_eq, (Hrec stuff) by lia. split.
    - intros [->|H]; [by apply class_single|by apply class_past_single].
    - inversion 1; subst; try (exfalso; by eapply Hno); auto. }
  destruct stuff as [|dash [|hi stuff]].
  - apply Hsingle. done.
  - apply Hsingle. done.
  - cbn [set_accepts]. destruct (Ascii.eqb dash "-") eqn:E.
    + apply Ascii.eqb_eq in E. subst dash.
      rewrite orb_true_iff, andb_true_iff, !code_le_spec, (Hrec stuff) by (simpl; lia).
      split.
      * intros [[H1 H2]|H]; [by apply class_range|by apply class_past_range].
      * inversion 1; subst; auto;
          match goal with H : forall _ _, _ <> _ |- _ => exfalso; by eapply H end.
    + apply Ascii.eqb_neq in E. apply Hsingle. intros hi' rest' [= -> _ _]. done.
Qed.

Lemma frag_accepts_false stuff c :
  frag_accepts false stuff c = true <-> class_has stuff c.
Proof. apply set_accepts_class_has. Qed.

Lemma frag_accepts_true stuff c :
  frag_accepts true stuff c = true <-> ~ class_has stuff c.
Proof.
  unfold frag_accepts. rewrite negb_true_iff, <- set_accepts_class_has.
  destruct (set_accepts stuff c); split; try done.
Qed.

Lemma re_match_glob pat :
  forall s, re_match (translate pat) s = true <-> glob pat s.
Proof.
  remember (List.length pat) as n eqn:Hn.
  revert pat Hn.
  induction n as [n IH] using lt_wf_ind. intros pat Hn s.
  destruct pat as [|c pat].
  - rewrite translate_nil. simpl. split.
    + destruct s; [constructor|discriminate].
    + inversion 1; reflexivity.
  - assert (Hrec : forall p', (List.length p' <= List.length pat)%nat ->
                forall s', re_match (translate p') s' = true <-> glob p' s').
    { intros p' Hle. eapply IH; [|reflexivity]. subst n. simpl. lia. }
    destruct (ascii_dec c "*") as [->|Hstar].
    { rewrite translate_star, re_match_star. split.
      - intros (run & s' & -> & Hs). constructor. apply Hrec; auto.
      - inversion 1; subst; try congruence.
        eexists _, _. split; [reflexivity|]. apply Hrec; auto. }
    destruct (ascii_dec c "?") as [->|Hone].
    { rewrite translate_one. simpl. split.
      - destruct s as [|a s]; [discriminate|]. intros H. constructor. apply Hrec; auto.
      - inversion 1; subst; try congruence.
        apply Hrec; auto. }
    destruct (ascii_dec c "[") as [->|Hbr].
    { destruct (close_bracket pat) as [[[neg stuff] rest]|] eqn:E.
      - rewrite (translate_class _ _ _ _ E). simpl.
        pose proof (close_bracket_shorter _ _ _ _ E) as Hlen.
        pose proof (proj1 (close_bracket_spec _ _ _ _) E) as Hb.
        split.
        + destruct s as [|a s]; [discriminate|]. intros H.
          apply andb_true_iff in H as [Ha Hs].
          apply Hrec in Hs; [|lia].
          destruct neg.
          * apply frag_accepts_true in Ha. eapply glob_class_not; eauto.
          * apply frag_accepts_false in Ha. eapply glob_class; eauto.
        + inversion 1; subst; try congruence.
          * match goal with H1 : bracket pat false _ _ |- _ =>
              apply close_bracket_spec in H1; rewrite E in H1;
              injection H1 as -> -> -> end.
            apply andb_true_iff. split; [by apply frag_accepts_false|].
            apply Hrec; [lia|auto].
          * match goal with H1 : bracket pat true _ _ |- _ =>
              apply close_bracket_spec in H1; rewrite E in H1;
              injection H1 as -> -> -> end.
            apply andb_true_iff. split; [by apply frag_accepts_true|].
            apply Hrec; [lia|auto].
          * exfalso. match goal with H1 : forall _ _ _, ~ bracket pat _ _ _ |- _ =>
              by eapply H1 end.
      - rewrite (translate_open _ E). simpl.
        pose proof (proj1 (close_bracket_none _) E) as Hno. split.
        + destruct s as [|a s]; [discriminate|]. intros H.
          apply andb_true_iff in H as [Ha Hs].
          apply Ascii.eqb_eq in Ha. subst a.
          apply glob_open; auto. apply Hrec; auto.
        + inversion 1; subst; try congruence.
          * exfalso. by eapply Hno.
          * exfalso. by eapply Hno.
          * rewrite Ascii.eqb_refl. simpl. apply Hrec; auto. }
    rewrite translate_char by assumption. simpl. split.
    + destruct s as [|a s]; [discriminate|]. intros H.
      apply andb_true_iff in H as [Ha Hs].
      apply Ascii.eqb_eq in Ha. subst a.
      constructor; auto. apply Hrec; auto.
    + inversion 1; subst; try congruence.
      rewrite Ascii.eqb_refl. simpl. apply Hrec; auto.
Qed.

Lemma fnmatch_glob e pattern :
  fnmatch e pattern = true <-> glob_matches pattern e.
Proof. apply re_match_glob. Qed.

End FnmatchGlob.

(** The cases of the matching, on the library's side. *)
Example fnmatch_star : Fnmatch.fnmatch "nav/heading" "nav/*" = true.
Proof. reflexivity. Qed.

Example fnmatch_star_empty_run : Fnmatch.fnmatch "nav/" "nav/*" = true.
Proof. reflexivity. Qed.

Example fnmatch_star_over_separator : Fnmatch.fnmatch "nav/gps/fix" "nav/*" = true.
Proof. reflexivity. Qed.

Example fnmatch_one : Fnmatch.fnmatch "nav/a" "nav/?" = true.
Proof. reflexivity. Qed.

Example fnmatch_one_not_none : Fnmatch.fnmatch "nav/" "nav/?" = false.
Proof. reflexivity. Qed.

Example fnmatch_one_not_two : Fnmatch.fnmatch "nav/ab" "nav/?" = false.
Proof. reflexivity. Qed.

Example fnmatch_class : Fnmatch.fnmatch "arm2" "arm[0-3]" = true.
Proof. reflexivity. Qed.

Example fnmatch_class_outside : Fnmatch.fnmatch "arm7" "arm[0-3]" = false.
Proof. reflexivity. Qed.

Example fnmatch_class_negated : Fnmatch.fnmatch "arm7" "arm[!0-3]" = true.
Proof. reflexivity. Qed.

Example fnmatch_class_unclosed : Fnmatch.fnmatch "arm[0" "arm[0" = true.
Proof. reflexivity. Qed.

Example fnmatch_not_prefix : Fnmatch.fnmatch "nav/heading" "nav" = false.
Proof. reflexivity. Qed.

Example fnmatch_not_suffix : Fnmatch.fnmatch "nav/heading" "heading" = false.
Proof. reflexivity. Qed.

Example fnmatch_not_inside : Fnmatch.fnmatch "xnav/heading" "nav/*" = false.
Proof. reflexivity. Qed.

(** ** Dispatch *)

Lemma schedule_tasks w callbacks ev d :
  tasks (schedule w callbacks ev d) = tasks w ++ callbacks_for ev d callbacks.
Proof.
  revert w. induction callbacks as [|cb cbs IH]; intros w; simpl.
  - by rewrite app_nil_r.
  - rewrite IH. simpl. by rewrite <- app_assoc.
Qed.

Lemma schedule_frame w callbacks ev d :
  dev (schedule w callbacks ev d) = dev w /\
  store (schedule w callbacks ev d) = store w /\
  sent (schedule w callbacks ev d) = sent w /\
  threads (schedule w callbacks ev d) = threads w.
Proof.
  revert w. induction callbacks as [|cb cbs IH]; intros w; simpl; [done|].
  destruct (IH (create_task w (Callback cb ev d))) as (-> & -> & -> & ->). done.
Qed.

Lemma fnmatch_call_ok ev key :
  Fnmatch.compiles key = true ->
  Fnmatch.fnmatch_call ev key = inr (Fnmatch.fnmatch ev key).
Proof. intros H. unfold Fnmatch.fnmatch_call. by rewrite H. Qed.

(** One pass over the registry changes nothing but the tasks of the
    loop, and only adds to them, however it ends. *)
Lemma _receive_items_frame w items ev d :
  dev (fst (_receive_items w items ev d)) = dev w /\
  store (fst (_receive_items w items ev d)) = store w /\
  sent (fst (_receive_items w items ev d)) = sent w /\
  exists more, tasks (fst (_receive_items w items ev d)) = tasks w ++ more.
Proof.
  revert w. induction items as [|[key cbs] items IH]; intros w; simpl.
  - repeat split. exists []. by rewrite app_nil_r.
  - destruct (Fnmatch.fnmatch_call ev key) as [e|[|]]; simpl.
    + repeat split. exists []. by rewrite app_nil_r.
    + destruct (IH (schedule w cbs ev d)) as (-> & -> & -> & more & ->).
      destruct (schedule_frame w cbs ev d) as (-> & -> & -> & _).
      repeat split. rewrite schedule_tasks, <- app_assoc. eauto.
    + apply IH.
Qed.

(** The tasks of one pass over a registry whose patterns compile, entry
    by entry. *)
Lemma _receive_items_tasks w items ev d :
  registry_compiles items ->
  snd (_receive_items w items ev d) = None /\
  tasks (fst (_receive_items w items ev d)) =
  tasks w ++ flat_map (fun '(key, callbacks) =>
                         if Fnmatch.fnmatch ev key
                         then callbacks_for ev d callbacks else []) items.
Proof.
  intros Hc. revert w. induction Hc as [|[key cbs] items Hk Hc IH]; intros w; simpl.
  - by rewrite app_nil_r.
  - simpl in Hk. rewrite (fnmatch_call_ok _ _ Hk).
    destruct (Fnmatch.fnmatch ev key); simpl.
    + destruct (IH (schedule w cbs ev d)) as [-> ->]. split; [done|].
      rewrite schedule_tasks. by rewrite <- app_assoc.
    + apply IH.
Qed.

Lemma created_by_app w w' new :
  tasks w' = tasks w ++ new -> created_by w w' = new.
Proof. intros H. unfold created_by. rewrite H. by rewrite drop_app_length. Qed.

Lemma in_callbacks_for t ev d callbacks :
  In t (callbacks_for ev d callbacks) <->
  exists cb, In cb callbacks /\ t = Callback cb ev d.
Proof.
  unfold callbacks_for. rewrite in_map_iff. split.
  - intros (cb & <- & H). eauto.
  - intros (cb & H & ->). eauto.
Qed.

Lemma _receive_round_frame w packet :
  dev (fst (_receive_round w packet)) = dev w /\
  store (fst (_receive_round w packet)) = store w /\
  sent (fst (_receive_round w packet)) = sent w /\
  exists more, tasks (fst (_receive_round w packet)) = tasks w ++ more.
Proof. apply _receive_items_frame. Qed.

Lemma _receive_round_tasks w packet :
  registry_compiles (events (dev w)) ->
  snd (_receive_round w packet) = None /\
  tasks (fst (_receive_round w packet))
  = tasks w ++ callbacks_of (events (dev w)) packet.
Proof. apply _receive_items_tasks. Qed.

Lemma _receive_run_frame w packets :
  dev (fst (_receive_run w packets)) = dev w /\
  store (fst (_receive_run w packets)) = store w /\
  sent (fst (_receive_run w packets)) = sent w /\
  exists more, tasks (fst (_receive_run w packets)) = tasks w ++ more.
Proof.
  revert w. induction packets as [|p ps IH]; intros w; simpl.
  - repeat split. exists []. by rewrite app_nil_r.
  - destruct (_receive_round_frame w p) as (Hd & Hs & Hse & m1 & Ht).
    destruct (_receive_round w p) as [w' [e|]]; simpl in *.
    + repeat split; eauto.
    + destruct (IH w') as (-> & -> & -> & m2 & ->).
      rewrite Hd, Hs, Hse, Ht. repeat split.
      exists (m1 ++ m2). by rewrite app_assoc.
Qed.

Lemma _receive_task_created w packets :
  registry_compiles (events (dev w)) ->
  snd (_receive_run w packets) = None /\
  tasks (_receive_task w packets) =
  tasks w ++ flat_map (callbacks_of (events (dev w))) packets.
Proof.
  unfold _receive_task. revert w.
  induction packets as [|p ps IH]; intros w Hc; simpl.
  - by rewrite app_nil_r.
  - destruct (_receive_round_tasks w p Hc) as [Hn Ht].
    destruct (_receive_round_frame w p) as (Hd & _).
    destruct (_receive_round w p) as [w' r]. simpl in *. subst r.
    rewrite <- Hd in Hc. destruct (IH w' Hc) as [-> ->].
    split; [done|]. by rewrite Ht, Hd, <- app_assoc.
Qed.

Lemma in_created_by_receive w packets t :
  registry_compiles (events (dev w)) ->
  In t (created_by w (_receive_task w packets)) <->
  exists packet pattern handlers handler,
    In packet packets /\
    In (pattern, handlers) (events (dev w)) /\
    glob_matches pattern (event packet) /\
    In handler handlers /\
    t = Callback handler (event packet) (data packet).
Proof.
  intros Hc.
  rewrite (created_by_app _ _ _ (proj2 (_receive_task_created w packets Hc))).
  rewrite in_flat_map. split.
  - intros (packet & Hp & Ht). exists packet.
    apply in_flat_map in Ht as ([key cbs] & Hin & Ht).
    destruct (Fnmatch.fnmatch (event packet) key) eqn:E; [|destruct Ht].
    apply in_callbacks_for in Ht as (cb & Hcb & ->).
    exists key, cbs, cb. repeat split; auto. by apply fnmatch_glob.
  - intros (packet & pattern & handlers & handler & Hp & Hin & Hg & Hh & ->).
    exists packet. split; [done|].
    apply in_flat_map. exists (pattern, handlers). split; [done|].
    apply fnmatch_glob in Hg. rewrite Hg.
    apply in_callbacks_for. eauto.
Qed.

(** C2, as the code has it: on the network path, with a registry whose
    patterns all compile, the receive task does not end, and a task
    [handler(e, data)] is created for a received packet exactly when the
    registry holds a pair of a pattern and a handler list with that
    handler whose pattern matches the whole of [e] as a shell glob; so
    every handler of every matching pattern is scheduled, and nothing
    else is. *)
Theorem receive_dispatch_glob (w : World) (packets : list Packet) (t : Task) :
  registry_compiles (events (dev w)) ->
  snd (_receive_run w packets) = None /\
  (In t (created_by w (_receive_task w packets)) <->
   exists packet pattern handlers handler,
     In packet packets /\
     In (pattern, handlers) (events (dev w)) /\
     glob_matches pattern (event packet) /\
     In handler handlers /\
     t = Callback handler (event packet) (data packet)).
Proof.
  intros Hc. split.
  - apply (_receive_task_created w packets Hc).
  - by apply in_created_by_receive.
Qed.

Lemma receive_dispatch_glob_witness :
  let w := fst (on (fst (on (init "base" 0) "arm[0-3]" 1)) "nav/*" 2) in
  let packets := [mkPacket "arm2" (PInt 7); mkPacket "arm7" PNone] in
  registry_compiles (events (dev w)) /\
  snd (_receive_run w packets) = None /\
  In (Callback 1 "arm2" (PInt 7)) (created_by w (_receive_task w packets)).
Proof.
  cbv zeta.
  set (w := fst (on (fst (on (init "base" 0) "arm[0-3]" 1)) "nav/*" 2)).
  assert (Hc : registry_compiles (events (dev w))).
  { repeat constructor. }
  pose proof (receive_dispatch_glob w [mkPacket "arm2" (PInt 7); mkPacket "arm7" PNone]
                (Callback 1 "arm2" (PInt 7)) Hc) as [F1 F2].
  split; [exact Hc|]. split; [exact F1|].
  apply F2. exists (mkPacket "arm2" (PInt 7)), "arm[0-3]", [1], 1.
  split; [by left|]. split; [by left|]. split; [|split; [by left|done]].
  apply fnmatch_glob. reflexivity.
Defined.

(** C2, as stated, fails: with a pattern that holds a reversed range in
    the registry, [fnmatch] raises at that entry and the receive task
    ends; a handler under [*], registered after it, is scheduled for no
    packet, although [*] matches every event. *)
Lemma receive_dispatch_bad_range :
  let w := fst (on (fst (on (init "base" 0) "[z-a]" 1)) "*" 2) in
  let packets := [mkPacket "x" PNone; mkPacket "y" PNone] in
  In ("*", [2]) (events (dev w)) /\
  In 2 [2] /\
  glob_matches "*" "x" /\
  glob_matches "*" "y" /\
  created_by w (_receive_task w packets) = [] /\
  snd (_receive_run w packets) = Some Fnmatch.bad_character_range.
Proof.
  cbv zeta. split; [right; left; reflexivity|]. split; [left; reflexivity|].
  split; [apply fnmatch_glob; reflexivity|].
  split; [apply fnmatch_glob; reflexivity|].
  split; reflexivity.
Qed.

(** The scenario of the specification: device [nav] publishes
    [heading] with 42; of a subscriber on [nav/*] and one on [cam/*],
    the first alone is scheduled. *)
Example scenario_nav_heading :
  let a := init "nav" 0 in
  let b := fst (on (fst (on (init "base" 1) "nav/*" 1)) "cam/*" 2) in
  exists p,
    snd (publish a "heading" (PInt 42)) = Awaitable (QueuePut p) /\
    created_by b (_receive_task b [p]) = [Callback 1 "nav/heading" (PInt 42)].
Proof. eexists. split; reflexivity. Qed.

(** ** Dispatch on a serial transport *)

Lemma registry_get_in r key callbacks :
  registry_get r key = Some callbacks -> In (key, callbacks) r.
Proof.
  induction r as [|[k cbs] r IH]; simpl; [discriminate|].
  destruct (String.eqb k key) eqn:E.
  - apply String.eqb_eq in E. intros [= ->]. left. by subst.
  - intros H. right. auto.
Qed.

Lemma in_registry_get r key callbacks :
  NoDup r.*1 -> In (key, callbacks) r -> registry_get r key = Some callbacks.
Proof.
  induction r as [|[k cbs] r IH]; simpl; [done|].
  intros Hnd [Heq|Hin].
  - injection Heq as -> ->. by rewrite String.eqb_refl.
  - apply NoDup_cons in Hnd as [Hk Hnd].
    destruct (String.eqb k key) eqn:E; [|auto].
    apply String.eqb_eq in E. subst k. exfalso. apply Hk.
    apply list_elem_of_In. apply (in_map fst) in Hin. exact Hin.
Qed.

Lemma _serial_read_round_tasks w r ser packet :
  store w !! r = Some ser ->
  store (_serial_read_round w r packet) = store w /\
  tasks (_serial_read_round w r packet) =
  tasks w ++ match registry_get (sd_events ser) (event packet) with
             | Some callbacks => callbacks_for (event packet) (data packet) callbacks
             | None => []
             end.
Proof.
  intros H. unfold _serial_read_round. rewrite H.
  destruct (registry_get (sd_events ser) (event packet)) as [cbs|].
  - rewrite schedule_tasks.
    by destruct (schedule_frame w cbs (event packet) (data packet)) as (_ & -> & _).
  - by rewrite app_nil_r.
Qed.

Lemma _serial_read_task_tasks w r ser packets :
  store w !! r = Some ser ->
  tasks (_serial_read_task w r packets) =
  tasks w ++ flat_map (fun packet =>
                         match registry_get (sd_events ser) (event packet) with
                         | Some callbacks =>
                             callbacks_for (event packet) (data packet) callbacks
                         | None => []
                         end) packets.
Proof.
  unfold _serial_read_task. revert w.
  induction packets as [|p ps IH]; intros w H; simpl.
  - by rewrite app_nil_r.
  - destruct (_serial_read_round_tasks w r ser p H) as [Hs Ht].
    rewrite IH by (by rewrite Hs). by rewrite Ht, <- app_assoc.
Qed.

(** C1, as the code has it: on a serial transport a task
    [handler(e, data)] is created for a packet read from it exactly when
    the transport's own registry holds the handler under a key equal to
    the event string [e]; the key is looked up, not matched as a
    pattern. *)
Theorem serial_dispatch_exact (w : World) (r : ref) (ser : SerialDevice)
    (packets : list Packet) (t : Task) :
  store w !! r = Some ser ->
  NoDup (sd_events ser).*1 ->
  In t (created_by w (_serial_read_task w r packets)) <->
  exists packet pattern handlers handler,
    In packet packets /\
    In (pattern, handlers) (sd_events ser) /\
    pattern = event packet /\
    In handler handlers /\
    t = Callback handler (event packet) (data packet).
Proof.
  intros Hr Hnd.
  rewrite (created_by_app _ _ _ (_serial_read_task_tasks w r ser packets Hr)).
  rewrite in_flat_map. split.
  - intros (packet & Hp & Ht). exists packet.
    destruct (registry_get (sd_events ser) (event packet)) as [cbs|] eqn:E;
      [|destruct Ht].
    apply in_callbacks_for in Ht as (cb & Hcb & ->).
    exists (event packet), cbs, cb. repeat split; auto. by apply registry_get_in.
  - intros (packet & pattern & handlers & handler & Hp & Hin & -> & Hh & ->).
    exists packet. split; [done|].
    rewrite (in_registry_get _ _ _ Hnd Hin).
    apply in_callbacks_for. eauto.
Qed.

Lemma serial_dispatch_exact_witness :
  let ser := mkSerialDevice "/dev/ttyACM0" "json" 0 [("test", [1])] in
  let w := set_store (init "link" 0) {[ 0 := ser ]} in
  let packet := mkPacket "test" (PInt 5) in
  store w !! 0 = Some ser /\
  NoDup (sd_events ser).*1 /\
  In (Callback 1 "test" (PInt 5)) (created_by w (_serial_read_task w 0 [packet])).
Proof.
  cbv zeta.
  set (ser := mkSerialDevice "/dev/ttyACM0" "json" 0 [("test", [1])]).
  assert (Hr : store (set_store (init "link" 0) {[ 0 := ser ]}) !! 0 = Some ser).
  { apply lookup_singleton_eq. }
  assert (Hnd : NoDup (sd_events ser).*1).
  { simpl. apply NoDup_singleton. }
  split; [exact Hr|]. split; [exact Hnd|].
  apply (proj2 (serial_dispatch_exact _ 0 ser [mkPacket "test" (PInt 5)] _ Hr Hnd)).
  exists (mkPacket "test" (PInt 5)), "test", [1], 1.
  simpl. auto 10.
Defined.

(** C1, as stated, fails: a handler registered under [nav/*] on a serial
    transport's registry is not scheduled for [nav/heading] read from that
    transport, although the event matches the pattern as a glob and the
    network dispatch over the same registry does schedule it. *)
Lemma serial_dispatch_not_glob :
  let ser := mkSerialDevice "/dev/ttyACM0" "json" 0 [("nav/*", [7])] in
  let w := set_store (init "link" 0) {[ 0 := ser ]} in
  let packet := mkPacket "nav/heading" (PInt 42) in
  store w !! 0 = Some ser /\
  In ("nav/*", [7]) (sd_events ser) /\
  glob_matches "nav/*" (event packet) /\
  created_by w (_serial_read_task w 0 [packet]) = [] /\
  created_by w (_receive_task (set_dev w (set_events (dev w) (sd_events ser))) [packet])
  = [Callback 7 "nav/heading" (PInt 42)].
Proof.
  cbv zeta. split; [apply lookup_singleton_eq|].
  split; [left; reflexivity|]. split.
  - apply fnmatch_glob. vm_compute. reflexivity.
  - split.
    + unfold _serial_read_task, _serial_read_round. simpl.
      rewrite lookup_singleton_eq. reflexivity.
    + reflexivity.
Qed.

(** ** The send path *)

(** C3: [publish(t, d)] builds the one packet whose event is the device's
    name, a slash and [t] and whose data is [d], and hands back the
    queue's [put] for it, leaving the world as it was; when the caller
    has awaited that [put], which an unbounded queue completes at once,
    the packet is the newest element of the outbound queue, nothing else
    has changed, nothing was sent, and a send loop waiting in [get] finds
    a packet to take. *)
Theorem publish_enqueues (w : World) (t : string) (d : pyval) :
  let packet := mkPacket (name (dev w) ++ "/" ++ t)%string d in
  let w' := await_put w packet in
  publish w t d = (w, Awaitable (QueuePut packet)) /\
  _send_queue (dev w') = _send_queue (dev w) ++ [packet] /\
  sent w' = sent w /\
  set_send_queue (dev w') (_send_queue (dev w)) = dev w /\
  store w' = store w /\ tasks w' = tasks w /\ threads w' = threads w /\
  forall done, _send_step (mkSendRun w' AtGet done) <> None.
Proof.
  cbv zeta. repeat split; try reflexivity.
  - by destruct w as [[] ? ? ? ?].
  - intros done. unfold _send_step. simpl.
    destruct (_send_queue (dev w)); discriminate.
Qed.

Lemma act_frame s a :
  name (dev (sworld (act s a))) = name (dev (sworld s)).
Proof.
  destruct a; simpl; [reflexivity|].
  unfold _send_step. destruct (pc s); [|reflexivity].
  destruct (_send_queue (dev (sworld s))); reflexivity.
Qed.

(** Whatever the interleaving, the packets sent so far followed by the
    queued ones are the packets that were ever queued, in order. *)
Lemma act_order s a :
  sent (sworld (act s a)) ++ _send_queue (dev (sworld (act s a))) =
  sent (sworld s) ++ _send_queue (dev (sworld s))
  ++ published (name (dev (sworld s))) [a].
Proof.
  destruct a; simpl.
  - reflexivity.
  - rewrite app_nil_r. unfold _send_step. destruct (pc s); [|reflexivity].
    destruct (_send_queue (dev (sworld s))) as [|p q] eqn:E; simpl.
    + by rewrite E.
    + by rewrite <- app_assoc.
Qed.

Lemma published_app nm l1 l2 :
  published nm (l1 ++ l2) = published nm l1 ++ published nm l2.
Proof.
  induction l1 as [|[topic d|] l1 IH]; simpl; [done| |done].
  by rewrite IH.
Qed.

Lemma acts_name s l :
  name (dev (sworld (acts s l))) = name (dev (sworld s)).
Proof.
  unfold acts. revert s. induction l as [|a l IH]; intros s; simpl; [done|].
  rewrite IH. apply act_frame.
Qed.

Lemma acts_order s l :
  sent (sworld (acts s l)) ++ _send_queue (dev (sworld (acts s l))) =
  sent (sworld s) ++ _send_queue (dev (sworld s))
  ++ published (name (dev (sworld s))) l.
Proof.
  unfold acts. revert s. induction l as [|a l IH]; intros s; cbn [fold_left].
  - simpl. by rewrite app_nil_r.
  - rewrite IH. rewrite act_frame.
    change (a :: l) with ([a] ++ l). rewrite published_app.
    rewrite app_assoc, act_order, <- !app_assoc. done.
Qed.

Lemma _send_step_one_at_a_time s s' :
  one_at_a_time s -> _send_step s = Some s' -> one_at_a_time s'.
Proof.
  unfold one_at_a_time, _send_step.
  destruct (pc s) as [|p]; intros H.
  - destruct (_send_queue (dev (sworld s))) as [|q qs]; [discriminate|].
    intros [= <-]. simpl. by rewrite H.
  - intros [= <-]. simpl. done.
Qed.

Lemma act_one_at_a_time s a :
  one_at_a_time s -> one_at_a_time (act s a).
Proof.
  destruct a; simpl; [done|].
  destruct (_send_step s) eqn:E; [|done].
  intros H. eapply _send_step_one_at_a_time; eauto.
Qed.

Lemma acts_one_at_a_time s l :
  one_at_a_time s -> one_at_a_time (acts s l).
Proof.
  unfold acts. revert s. induction l as [|a l IH]; intros s H; simpl; [done|].
  apply IH. by apply act_one_at_a_time.
Qed.

(** Left alone, the send loop empties the queue. *)
Lemma _send_task_drains n s :
  one_at_a_time s ->
  (resumptions_needed s <= n)%nat ->
  let s' := _send_task n s in
  pc s' = AtGet /\
  _send_queue (dev (sworld s')) = [] /\
  sent (sworld s') = sent (sworld s) ++ _send_queue (dev (sworld s)) /\
  completed s' = sent (sworld s') /\
  name (dev (sworld s')) = name (dev (sworld s)).
Proof.
  revert s. induction n as [|n IH]; intros s Hone Hn;
    unfold resumptions_needed in Hn; cbv zeta;
    pose proof Hone as Hone'; unfold one_at_a_time in Hone'.
  - simpl. destruct (pc s); [|lia].
    destruct (_send_queue (dev (sworld s))); [|simpl in Hn; lia].
    rewrite app_nil_r. done.
  - simpl. unfold _send_step.
    destruct (pc s) as [|p] eqn:Epc.
    + destruct (_send_queue (dev (sworld s))) as [|q qs] eqn:Eq.
      * rewrite Epc, Eq, app_nil_r. done.
      * simpl in Hn.
        match goal with |- context [_send_task n ?x] =>
          specialize (IH x); set (s1 := x) in * end.
        cbv zeta in IH. simpl in IH. rewrite <- app_assoc in IH. simpl in IH.
        apply IH.
        -- unfold one_at_a_time. simpl. by rewrite Hone'.
        -- unfold resumptions_needed. simpl. lia.
    + match goal with |- context [_send_task n ?x] =>
        specialize (IH x); set (s1 := x) in * end.
      cbv zeta in IH. simpl in IH.
      apply IH.
      * unfold one_at_a_time. simpl. done.
      * unfold resumptions_needed. simpl. lia.
Qed.

(** C4: from a send loop at rest, after any interleaving of awaited
    publish calls and resumptions of the send loop, the packets handed
    to [send] and then those still queued are, in order, the ones
    already there and then the published ones; a [send] is called only
    when the one before has completed; and once the loop has run until
    the queue is empty, [send] has been called once for each published
    packet, in publish order, and each call has completed. *)
Theorem send_fifo (w : World) (l : list action) :
  let pubs := published (name (dev w)) l in
  let s := acts (mkSendRun w AtGet (sent w)) l in
  let s' := _send_task (2 * List.length (_send_queue (dev (sworld s))) + 1) s in
  sent (sworld s) ++ _send_queue (dev (sworld s)) = sent w ++ _send_queue (dev w) ++ pubs /\
  one_at_a_time s /\
  sent (sworld s') = sent w ++ _send_queue (dev w) ++ pubs /\
  completed s' = sent (sworld s') /\
  _send_queue (dev (sworld s')) = [] /\
  _send_step s' = None /\
  List.length (sent (sworld s')) =
    (List.length (sent w) + List.length (_send_queue (dev w)) + List.length pubs)%nat.
Proof.
  cbv zeta.
  set (s0 := mkSendRun w AtGet (sent w)).
  assert (H0 : one_at_a_time s0) by reflexivity.
  pose proof (acts_order s0 l) as Hord. simpl in Hord.
  pose proof (acts_one_at_a_time s0 l H0) as Hone.
  assert (Hn : (resumptions_needed (acts s0 l)
                 <= 2 * List.length (_send_queue (dev (sworld (acts s0 l)))) + 1)%nat).
  { unfold resumptions_needed. destruct (pc (acts s0 l)); lia. }
  destruct (_send_task_drains _ (acts s0 l) Hone Hn)
    as (Hpc & Hq & Hsent & Hdone & _).
  rewrite Hord in Hsent.
  repeat split; auto.
  - unfold _send_step. by rewrite Hpc, Hq.
  - rewrite Hsent, !length_app. lia.
Qed.

(** ** Lifecycle *)

Lemma create_task_dev w t : dev (create_task w t) = dev w.
Proof. reflexivity. Qed.

Lemma fold_create_task_dev (f : ref -> Task) (l : list ref) w :
  dev (fold_left (fun acc x => create_task acc (f x)) l w) = dev w.
Proof. revert w. induction l as [|x l IH]; intros w; simpl; [done|]. by rewrite IH. Qed.

Lemma _thread_target_dev w : dev (_thread_target w) = dev w.
Proof. unfold _thread_target. by rewrite fold_create_task_dev. Qed.

Lemma link_serial_thread w r :
  _thread (dev (fst (link_serial w r))) = _thread (dev w).
Proof. unfold link_serial. by destruct (store w !! r). Qed.

Lemma exec_thread w o :
  o <> Start -> o <> Stop ->
  _thread (dev (fst (exec w o))) = _thread (dev w).
Proof.
  destruct o; intros H1 H2; try congruence; cbn [exec]; try reflexivity.
  - apply link_serial_thread.
  - unfold wait. by destruct (_thread (dev w)) eqn:E.
Qed.

Lemma start_thread w :
  _thread (dev (fst (start w))) = Some (default (threads w) (_thread (dev w))).
Proof.
  unfold start. destruct (_thread (dev w)) eqn:E; simpl; [done|].
  by rewrite _thread_target_dev.
Qed.

Lemma stop_thread w : _thread (dev (fst (stop w))) = None.
Proof. unfold stop. by destruct (_thread (dev w)) eqn:E. Qed.

Lemma state_exec w o :
  state (fst (exec w o)) = lifecycle_step (state w) o.
Proof.
  unfold state. destruct o.
  all: try (rewrite exec_thread by discriminate; simpl; by destruct (_thread (dev w))).
  - cbn [exec]. rewrite start_thread. by destruct (_thread (dev w)).
  - cbn [exec]. rewrite stop_thread. by destruct (_thread (dev w)).
Qed.

Lemma state_exec_all w os :
  state (exec_all w os) = lifecycle_spec (state w) os.
Proof.
  unfold exec_all, lifecycle_spec. revert w.
  induction os as [|o os IH]; intros w; simpl; [done|].
  by rewrite IH, state_exec.
Qed.

Lemma lifecycle_spec_running os :
  Forall (fun o => o <> Stop) os -> lifecycle_spec Running os = Running.
Proof.
  unfold lifecycle_spec. induction 1 as [|o os Ho _ IH]; simpl; [done|].
  destruct o; try done.
Qed.

Lemma lifecycle_spec_stopped os :
  Forall (fun o => o <> Start) os -> lifecycle_spec Stopped os = Stopped.
Proof.
  unfold lifecycle_spec. induction 1 as [|o os Ho _ IH]; simpl; [done|].
  destruct o; try done.
Qed.

(** C5: [start] on a device that is not stopped raises "device already
    running" and [stop] on a stopped device raises "device not running";
    the exception comes out of the call itself and the world is as it was
    before.  So every [start] that follows a successful [start] with no
    [stop] in between fails, and so does a [stop] that no [start]
    precedes. *)
Theorem lifecycle_errors (w : World) (os : list op) :
  (state w <> Stopped ->
   start w = (w, Raised (RuntimeError "device already running"))) /\
  (state w = Stopped ->
   stop w = (w, Raised (RuntimeError "device not running"))) /\
  (snd (start w) = Returned -> Forall (fun o => o <> Stop) os ->
   let w' := exec_all (fst (start w)) os in
   start w' = (w', Raised (RuntimeError "device already running"))) /\
  (state w = Stopped -> Forall (fun o => o <> Start) os ->
   let w' := exec_all w os in
   stop w' = (w', Raised (RuntimeError "device not running"))).
Proof.
  assert (Hstart : forall v, state v <> Stopped ->
            start v = (v, Raised (RuntimeError "device already running"))).
  { intros v. unfold state, start. by destruct (_thread (dev v)). }
  assert (Hstop : forall v, state v = Stopped ->
            stop v = (v, Raised (RuntimeError "device not running"))).
  { intros v. unfold state, stop. by destruct (_thread (dev v)). }
  split; [apply Hstart|]. split; [apply Hstop|]. split.
  - intros Hret Hos. cbv zeta. apply Hstart.
    rewrite state_exec_all.
    assert (state (fst (start w)) = Running) as ->.
    { unfold state. by rewrite start_thread. }
    by rewrite lifecycle_spec_running.
  - intros Hst Hos. cbv zeta. apply Hstop.
    rewrite state_exec_all, Hst. by apply lifecycle_spec_stopped.
Qed.

Lemma lifecycle_errors_witness :
  let w0 := init "nav" 0 in
  let w := fst (start w0) in
  state w <> Stopped /\
  start w = (w, Raised (RuntimeError "device already running")) /\
  state w0 = Stopped /\
  stop w0 = (w0, Raised (RuntimeError "device not running")) /\
  snd (start w0) = Returned /\
  Forall (fun o => o <> Stop) [Publish "heading" (PInt 42); Start] /\
  (let w' := exec_all w [Publish "heading" (PInt 42); Start] in
   start w' = (w', Raised (RuntimeError "device already running"))) /\
  Forall (fun o => o <> Start) [On "nav/*" 1; Wait] /\
  (let w' := exec_all w0 [On "nav/*" 1; Wait] in
   stop w' = (w', Raised (RuntimeError "device not running"))).
Proof.
  assert (H1 : state (fst (start (init "nav" 0))) <> Stopped) by (vm_compute; discriminate).
  assert (H2 : state (init "nav" 0) = Stopped) by reflexivity.
  assert (H3 : snd (start (init "nav" 0)) = Returned) by reflexivity.
  assert (H4 : Forall (fun o => o <> Stop) [Publish "heading" (PInt 42); Start]).
  { repeat constructor; discriminate. }
  assert (H5 : Forall (fun o => o <> Start) [On "nav/*" 1; Wait]).
  { repeat constructor; discriminate. }
  cbv zeta.
  split; [exact H1|].
  split; [exact (proj1 (lifecycle_errors (fst (start (init "nav" 0))) []) H1)|].
  split; [exact H2|].
  split; [exact (proj1 (proj2 (lifecycle_errors (init "nav" 0) [])) H2)|].
  split; [exact H3|].
  split; [exact H4|].
  split; [exact (proj1 (proj2 (proj2 (lifecycle_errors (init "nav" 0) _))) H3 H4)|].
  split; [exact H5|].
  exact (proj2 (proj2 (proj2 (lifecycle_errors (init "nav" 0) _))) H2 H5).
Defined.

(** C6: the thread handle is [None] on a new device; a [start] that
    returns finds it [None] and leaves it set, a [stop] that returns
    finds it set and leaves it [None]; no other call changes it; hence
    after any run of calls on a new device the handle is set exactly when
    the device is started. *)
Theorem thread_handle_lifecycle (w : World) (o : op) (nm : string) (loop : loop_ref)
    (os : list op) :
  _thread (dev (init nm loop)) = None /\
  (snd (start w) = Returned ->
   _thread (dev w) = None /\ is_Some (_thread (dev (fst (start w))))) /\
  (snd (stop w) = Returned ->
   is_Some (_thread (dev w)) /\ _thread (dev (fst (stop w))) = None) /\
  (o <> Start -> o <> Stop -> _thread (dev (fst (exec w o))) = _thread (dev w)) /\
  (snd (exec w o) <> Returned -> _thread (dev (fst (exec w o))) = _thread (dev w)) /\
  (is_Some (_thread (dev (exec_all (init nm loop) os))) <->
   lifecycle_spec Stopped os = Running).
Proof.
  split; [reflexivity|]. split; [|split; [|split; [|split]]].
  - intros H. rewrite start_thread. split; [|eauto].
    unfold start in H. by destruct (_thread (dev w)).
  - intros H. rewrite stop_thread. split; [|done].
    unfold stop in H. by destruct (_thread (dev w)).
  - apply exec_thread.
  - intros H. destruct o.
    all: try (apply exec_thread; discriminate).
    + cbn [exec] in *. unfold start in *. by destruct (_thread (dev w)) eqn:E.
    + cbn [exec] in *. unfold stop in *. by destruct (_thread (dev w)) eqn:E.
  - pose proof (state_exec_all (init nm loop) os) as H.
    change (state (init nm loop)) with Stopped in H. rewrite <- H.
    unfold state. destruct (_thread (dev (exec_all (init nm loop) os))).
    + split; eauto.
    + split; [intros [? ?]; done|done].
Qed.

Lemma thread_handle_lifecycle_witness :
  let w0 := init "nav" 0 in
  let w1 := fst (start w0) in
  snd (start w0) = Returned /\
  (_thread (dev w0) = None /\ is_Some (_thread (dev w1))) /\
  snd (stop w1) = Returned /\
  (is_Some (_thread (dev w1)) /\ _thread (dev (fst (stop w1))) = None) /\
  CreateSerial "/dev/ttyACM0" "json" <> Start /\
  CreateSerial "/dev/ttyACM0" "json" <> Stop /\
  _thread (dev (fst (exec w1 (CreateSerial "/dev/ttyACM0" "json")))) = _thread (dev w1) /\
  snd (exec w1 Start) <> Returned /\
  _thread (dev (fst (exec w1 Start))) = _thread (dev w1).
Proof.
  assert (H1 : snd (start (init "nav" 0)) = Returned) by reflexivity.
  assert (H2 : snd (stop (fst (start (init "nav" 0)))) = Returned) by reflexivity.
  assert (H3 : CreateSerial "/dev/ttyACM0" "json" <> Start) by discriminate.
  assert (H4 : CreateSerial "/dev/ttyACM0" "json" <> Stop) by discriminate.
  assert (H5 : snd (exec (fst (start (init "nav" 0))) Start) <> Returned)
    by (vm_compute; discriminate).
  cbv zeta.
  split; [exact H1|].
  split; [exact (proj1 (proj2 (thread_handle_lifecycle (init "nav" 0) Start "nav" 0 [])) H1)|].
  split; [exact H2|].
  split; [exact (proj1 (proj2 (proj2
            (thread_handle_lifecycle (fst (start (init "nav" 0))) Start "nav" 0 []))) H2)|].
  split; [exact H3|]. split; [exact H4|].
  split; [exact (proj1 (proj2 (proj2 (proj2
            (thread_handle_lifecycle (fst (start (init "nav" 0)))
               (CreateSerial "/dev/ttyACM0" "json") "nav" 0 [])))) H3 H4)|].
  split; [exact H5|].
  exact (proj1 (proj2 (proj2 (proj2 (proj2
            (thread_handle_lifecycle (fst (start (init "nav" 0))) Start "nav" 0 []))))) H5).
Defined.

(** ** The serial registry *)

Lemma create_serial_fresh w :
  store w !! fresh (dom (store w)) = None.
Proof. apply not_elem_of_dom, is_fresh. Qed.

Lemma _thread_target_serial w :
  _serial_devices (dev (_thread_target w)) = _serial_devices (dev w).
Proof. by rewrite _thread_target_dev. Qed.

(** One call against the registry: an attachment binds its path, any
    other call leaves every binding alone. *)
Lemma exec_registry w o p :
  _serial_devices (dev (fst (exec w o))) !! p =
  match attached w o with
  | Some (q, r) => if String.eqb q p then Some r else _serial_devices (dev w) !! p
  | None => _serial_devices (dev w) !! p
  end.
Proof.
  destruct o; cbn [exec attached]; try reflexivity.
  - simpl. destruct (String.eqb path p) eqn:E.
    + apply String.eqb_eq in E as ->. apply lookup_insert_eq.
    + apply String.eqb_neq in E. by apply lookup_insert_ne.
  - unfold link_serial. destruct (store w !! serial_device) as [sd|]; [|done].
    simpl. destruct (String.eqb (usb_path sd) p) eqn:E.
    + apply String.eqb_eq in E as ->. apply lookup_insert_eq.
    + apply String.eqb_neq in E. by apply lookup_insert_ne.
  - unfold wait. by destruct (_thread (dev w)).
  - unfold start. destruct (_thread (dev w)); [done|].
    simpl. by rewrite _thread_target_serial.
  - unfold stop. by destruct (_thread (dev w)).
Qed.

(** C8: after any run of calls the registry binds a path to the
    transport of the most recent attachment at that path, whether made
    by [create_serial] or by [link_serial], and to what it held before
    when there was none; its entries have pairwise different paths; and
    [create_serial] binds a transport that is new, with the state its
    constructor gave it, and leaves every other transport as it was. *)
Theorem serial_registry_latest (w : World) (os : list op) (p enc : string) :
  let w' := exec_all w os in
  let r := fresh (dom (store w)) in
  let v := fst (create_serial w p enc) in
  _serial_devices (dev w') !! p =
    latest p (attachments w os) (_serial_devices (dev w) !! p) /\
  NoDup (map_to_list (_serial_devices (dev w'))).*1 /\
  snd (create_serial w p enc) = Object r /\
  store w !! r = None /\
  _serial_devices (dev v) !! p = Some r /\
  store v !! r = Some (mkSerialDevice p enc (_loop (dev w)) []) /\
  (forall r', r' <> r -> store v !! r' = store w !! r').
Proof.
  cbv zeta. split; [|split; [apply NoDup_fst_map_to_list|]].
  - unfold exec_all. revert w.
    induction os as [|o os IH]; intros w; simpl; [done|].
    rewrite IH. pose proof (exec_registry w o p) as H.
    destruct (attached w o) as [[q r]|]; simpl; by rewrite H.
  - split; [done|]. split; [apply create_serial_fresh|].
    simpl. split; [apply lookup_insert_eq|].
    split; [apply lookup_insert_eq|].
    intros r' Hr. by apply lookup_insert_ne.
Qed.

(** C10: [link_serial] on a serial transport returns, having put the
    device's event loop in the transport's loop field and bound the
    transport in the registry under its path; the transport's path,
    encoding and events, every other transport, every other binding and
    every other field of the device and of its surroundings are as
    before. *)
Theorem link_serial_frame (w : World) (r : ref) (sd : SerialDevice) :
  store w !! r = Some sd ->
  let w' := fst (link_serial w r) in
  let sd' := mkSerialDevice (usb_path sd) (encoding sd) (_loop (dev w)) (sd_events sd) in
  snd (link_serial w r) = Returned /\
  store w' = <[r := sd']> (store w) /\
  store w' !! r = Some sd' /\
  (forall r', r' <> r -> store w' !! r' = store w !! r') /\
  _serial_devices (dev w') = <[usb_path sd := r]> (_serial_devices (dev w)) /\
  (forall q, q <> usb_path sd ->
     _serial_devices (dev w') !! q = _serial_devices (dev w) !! q) /\
  set_serial_devices (dev w') (_serial_devices (dev w)) = dev w /\
  tasks w' = tasks w /\ sent w' = sent w /\ threads w' = threads w.
Proof.
  intros H. cbv zeta. unfold link_serial. rewrite H. simpl.
  split; [done|]. split; [done|]. split; [apply lookup_insert_eq|].
  split; [intros r' Hr; by apply lookup_insert_ne|].
  split; [done|].
  split; [intros q Hq; by apply lookup_insert_ne|].
  split; [by destruct w as [[] ? ? ? ?]|done].
Qed.

Lemma link_serial_frame_witness :
  let sd := mkSerialDevice "/dev/ttyACM0" "json" 9 [("test", [1])] in
  let w := set_store (init "link" 0) {[ 4 := sd ]} in
  store w !! 4 = Some sd /\
  store (fst (link_serial w 4)) !! 4
    = Some (mkSerialDevice "/dev/ttyACM0" "json" 0 [("test", [1])]) /\
  _serial_devices (dev (fst (link_serial w 4))) !! "/dev/ttyACM0" = Some 4.
Proof.
  assert (H : store (set_store (init "link" 0)
                {[ 4 := mkSerialDevice "/dev/ttyACM0" "json" 9 [("test", [1])] ]}) !! 4
              = Some (mkSerialDevice "/dev/ttyACM0" "json" 9 [("test", [1])])).
  { apply lookup_singleton_eq. }
  cbv zeta. split; [exact H|].
  pose proof (link_serial_frame _ 4 _ H) as F. cbv zeta in F.
  destruct F as (_ & _ & F1 & _ & F2 & _).
  split; [exact F1|].
  rewrite F2. apply lookup_insert_eq.
Defined.

(** ** The periodic task *)

Lemma wake_after now seconds late :
  (now <= wake now seconds late)%Z /\ (now + seconds <= wake now seconds late)%Z.
Proof. unfold wake. lia. Qed.

Lemma _wrapper_times env dur rounds k now a :
  In a (_wrapper env dur rounds k now) ->
  (now <= began a)%Z /\ (began a <= ended a)%Z.
Proof.
  revert k now. induction rounds as [|n IH]; intros k now; simpl; [intros []|].
  destruct (fn_raises env k).
  - intros [<-|[]]. simpl. lia.
  - intros [<-|Hin]; [simpl; lia|].
    apply IH in Hin.
    pose proof (wake_after (now + Z.of_N (fn_time env k))
                  (duration_to_seconds dur) (lag env k)).
    lia.
Qed.

Lemma _wrapper_index env dur rounds k now i a :
  _wrapper env dur rounds k now !! i = Some a ->
  index a = (k + i)%nat /\
  ended a = (began a + Z.of_N (fn_time env (k + i)))%Z /\
  returned a = negb (fn_raises env (k + i)).
Proof.
  revert k now i. induction rounds as [|n IH]; intros k now i; simpl; [done|].
  destruct (fn_raises env k) eqn:E.
  - destruct i as [|i]; [|done]. intros [= <-]. simpl.
    rewrite Nat.add_0_r, E. done.
  - destruct i as [|i].
    + intros [= <-]. simpl. rewrite Nat.add_0_r, E. done.
    + intros H. apply IH in H. by rewrite <- Nat.add_succ_comm.
Qed.

Lemma _wrapper_next env dur rounds k now i a b :
  _wrapper env dur rounds k now !! i = Some a ->
  _wrapper env dur rounds k now !! S i = Some b ->
  returned a = true /\
  began b = wake (ended a) (duration_to_seconds dur) (lag env (k + i)).
Proof.
  revert k now i. induction rounds as [|n IH]; intros k now i; simpl; [done|].
  destruct (fn_raises env k) eqn:E; [by destruct i|].
  destruct i as [|i].
  - intros [= <-]. simpl. rewrite Nat.add_0_r.
    destruct n as [|n]; simpl; [done|].
    destruct (fn_raises env (S k)); intros [= <-]; done.
  - intros Ha Hb. rewrite <- Nat.add_succ_comm. eapply IH; eauto.
Qed.

Lemma _wrapper_apart env dur rounds k now i j a b :
  (i < j)%nat ->
  _wrapper env dur rounds k now !! i = Some a ->
  _wrapper env dur rounds k now !! j = Some b ->
  (ended a <= began b)%Z.
Proof.
  revert k now i j. induction rounds as [|n IH]; intros k now i j Hij; simpl; [done|].
  destruct j as [|j]; [lia|].
  destruct (fn_raises env k) eqn:E; [done|].
  destruct i as [|i]; simpl.
  - intros [= <-] Hb. simpl.
    apply list_elem_of_lookup_2, list_elem_of_In, _wrapper_times in Hb.
    pose proof (wake_after (now + Z.of_N (fn_time env k))
                  (duration_to_seconds dur) (lag env k)).
    lia.
  - intros Ha Hb. eapply IH; [|eauto..]. lia.
Qed.

Lemma _wrapper_length env dur rounds k now :
  (forall i, (i < rounds)%nat -> fn_raises env (k + i) = false) ->
  List.length (_wrapper env dur rounds k now) = rounds.
Proof.
  revert k now. induction rounds as [|n IH]; intros k now H; simpl; [done|].
  pose proof (H 0%nat ltac:(lia)) as H0. rewrite Nat.add_0_r in H0. rewrite H0.
  simpl. f_equal. apply IH. intros i Hi.
  rewrite Nat.add_succ_comm. apply H. lia.
Qed.


(** ** Handlers and the dispatch loop *)

Lemma run_callback_ordinary body l i cb ev d :
  ordinary body ->
  run_callback body l i cb ev d
  = mkLoop (set_tasks (lworld l) (delete i (tasks (lworld l)))) (inbox l)
      (finished l ++ [(Callback cb ev d, body cb ev d)]) (receiver l) Live.
Proof.
  intros Ho. unfold run_callback. by destruct (Ho cb ev d) as [->|[e ->]].
Qed.

Lemma loop_move_same_course body l1 l2 m :
  ordinary body ->
  same_course l1 l2 ->
  same_course (loop_move body l1 m) (loop_move quiet l2 m).
Proof.
  intros Ho.
  destruct l1 as [w1 i1 f1 r1 s1], l2 as [w2 i2 f2 r2 s2].
  unfold same_course, loop_move. simpl. intros (-> & -> & -> & -> & Hf).
  destruct s2; [|done|done].
  destruct m as [|i].
  - destruct r2, i2; simpl; auto.
  - destruct (tasks w2 !! i) as [[| | |cb ev d| |]|]; auto.
    rewrite (run_callback_ordinary body _ _ _ _ _ Ho).
    rewrite (run_callback_ordinary quiet); [|by left]. simpl.
    rewrite !fmap_app, Hf. auto.
Qed.

Lemma loop_run_same_course body l1 l2 ms :
  ordinary body ->
  same_course l1 l2 ->
  same_course (loop_run body l1 ms) (loop_run quiet l2 ms).
Proof.
  intros Ho. unfold loop_run. revert l1 l2.
  induction ms as [|m ms IH]; intros l1 l2 H; simpl; [done|].
  by apply IH, loop_move_same_course.
Qed.

Lemma loop_move_finished body l m :
  exists new, finished (loop_move body l m) = finished l ++ new /\
              Forall (own_outcome body) new.
Proof.
  assert (Hnone : exists new, finished l = finished l ++ new /\
                              Forall (own_outcome body) new).
  { exists []. by rewrite app_nil_r. }
  unfold loop_move. destruct (lstate l); [|done|done].
  destruct m as [|i].
  - destruct (receiver l), (inbox l); done.
  - destruct (tasks (lworld l) !! i) as [[| | |cb ev d| |]|]; try done.
    unfold run_callback.
    assert (Hone : Forall (own_outcome body) [(Callback cb ev d, body cb ev d)]).
    { constructor; [|done]. by exists cb, ev, d. }
    destruct (body cb ev d) eqn:E; simpl; eauto.
Qed.

Lemma loop_run_finished body l ms :
  exists new, finished (loop_run body l ms) = finished l ++ new /\
              Forall (own_outcome body) new.
Proof.
  unfold loop_run. revert l.
  induction ms as [|m ms IH]; intros l; simpl.
  - exists []. by rewrite app_nil_r.
  - destruct (IH (loop_move body l m)) as (n2 & -> & H2).
    destruct (loop_move_finished body l m) as (n1 & -> & H1).
    exists (n1 ++ n2). rewrite app_assoc. split; [done|]. by apply Forall_app.
Qed.

(** With handlers that return or end in an [Exception] and patterns
    that compile, the loop goes on, the receive task with it, and the
    registry is as it was. *)
Lemma loop_move_goes_on body l m :
  ordinary body ->
  lstate l = Live -> receiver l = None ->
  registry_compiles (events (dev (lworld l))) ->
  lstate (loop_move body l m) = Live /\
  receiver (loop_move body l m) = None /\
  dev (lworld (loop_move body l m)) = dev (lworld l).
Proof.
  intros Ho Hl Hr Hc. unfold loop_move. rewrite Hl.
  destruct m as [|i].
  - rewrite Hr. destruct (inbox l) as [|p rest]; [done|]. simpl.
    destruct (_receive_round_tasks (lworld l) p Hc) as [-> _].
    by destruct (_receive_round_frame (lworld l) p) as (-> & _).
  - destruct (tasks (lworld l) !! i) as [[| | |cb ev d| |]|]; try done.
    by rewrite (run_callback_ordinary body _ _ _ _ _ Ho).
Qed.

Lemma loop_run_goes_on body l ms :
  ordinary body ->
  lstate l = Live -> receiver l = None ->
  registry_compiles (events (dev (lworld l))) ->
  lstate (loop_run body l ms) = Live /\
  receiver (loop_run body l ms) = None /\
  dev (lworld (loop_run body l ms)) = dev (lworld l).
Proof.
  intros Ho. unfold loop_run. revert l.
  induction ms as [|m ms IH]; intros l Hl Hr Hc; simpl; [done|].
  destruct (loop_move_goes_on body l m Ho Hl Hr Hc) as (Hl' & Hr' & Hd).
  destruct (IH (loop_move body l m) Hl' Hr') as (-> & -> & ->);
    [by rewrite Hd|]. done.
Qed.




(** * Further properties of the device *)

(** ** Registration *)

Lemma registry_append_keys r key cb :
  (registry_append r key cb).*1 =
  match registry_get r key with
  | Some _ => r.*1
  | None => r.*1 ++ [key]
  end.
Proof.
  induction r as [|[k cbs] r IH]; cbn [registry_append registry_get]; [done|].
  destruct (String.eqb k key) eqn:E; [done|].
  rewrite !fmap_cons, IH. by destruct (registry_get r key).
Qed.

Lemma registry_get_none_keys r key :
  registry_get r key = None -> ~ In key r.*1.
Proof.
  induction r as [|[k cbs] r IH]; simpl; [tauto|].
  destruct (String.eqb k key) eqn:E; [discriminate|].
  apply String.eqb_neq in E. intros H [Hk|Hin]; [done|]. by apply IH.
Qed.

Lemma registry_append_nodup r key cb :
  NoDup r.*1 -> NoDup (registry_append r key cb).*1.
Proof.
  intros H. rewrite registry_append_keys.
  destruct (registry_get r key) eqn:E; [done|].
  apply NoDup_app. split; [done|]. split; [|apply NoDup_singleton].
  intros x Hx Hk. apply list_elem_of_singleton in Hk as ->.
  apply (registry_get_none_keys _ _ E). by apply list_elem_of_In.
Qed.

Lemma registry_get_append_eq r key cb :
  registry_get (registry_append r key cb) key
  = Some (default [] (registry_get r key) ++ [cb]).
Proof.
  induction r as [|[k cbs] r IH]; simpl.
  - by rewrite String.eqb_refl.
  - destruct (String.eqb k key) eqn:E; simpl; rewrite E; [done|]. apply IH.
Qed.

Lemma registry_get_append_ne r key key' cb :
  key <> key' ->
  registry_get (registry_append r key cb) key' = registry_get r key'.
Proof.
  intros Hne. induction r as [|[k cbs] r IH]; simpl.
  - apply String.eqb_neq in Hne. by rewrite Hne.
  - destruct (String.eqb k key) eqn:E; simpl.
    + apply String.eqb_eq in E. subst k.
      apply String.eqb_neq in Hne. by rewrite Hne.
    + by rewrite IH.
Qed.

(** Only [on] touches the registry of handlers. *)
Lemma exec_events w o :
  events (dev (fst (exec w o))) =
  match o with
  | On ev callback => registry_append (events (dev w)) ev (as_coroutine callback)
  | _ => events (dev w)
  end.
Proof.
  destruct o; cbn [exec]; try reflexivity.
  - unfold link_serial. by destruct (store w !! serial_device).
  - unfold wait. by destruct (_thread (dev w)).
  - unfold start. destruct (_thread (dev w)); [done|].
    simpl. by rewrite _thread_target_dev.
  - unfold stop. by destruct (_thread (dev w)).
Qed.

(** X1: the registry of handlers keeps one entry for each pattern:
    whatever calls are made on a device whose patterns are pairwise
    different, they still are afterwards. *)
Theorem on_keeps_patterns_apart (w : World) (os : list op) :
  NoDup (events (dev w)).*1 ->
  NoDup (events (dev (exec_all w os))).*1.
Proof.
  unfold exec_all. revert w.
  induction os as [|o os IH]; intros w H; simpl; [done|].
  apply IH. rewrite exec_events.
  destruct o; try done. by apply registry_append_nodup.
Qed.

Lemma on_keeps_patterns_apart_witness :
  NoDup (events (dev (init "nav" 0))).*1 /\
  NoDup (events (dev (exec_all (init "nav" 0)
                        [On "nav/*" 1; On "cam/*" 2; On "nav/*" 3]))).*1.
Proof.
  assert (H : NoDup (events (dev (init "nav" 0))).*1) by apply NoDup_nil_2.
  split; [exact H|].
  exact (on_keeps_patterns_apart (init "nav" 0)
           [On "nav/*" 1; On "cam/*" 2; On "nav/*" 3] H).
Defined.

(** X2: after [on(pattern)(callback)] the handlers under the pattern
    are those it had, in their order, followed by the new one (the new
    one alone when the pattern was not there), and the handlers under
    every other pattern are as before. *)
Theorem on_then_lookup (w : World) (pattern other : string) (callback : coro) :
  let w' := fst (on w pattern callback) in
  registry_get (events (dev w')) pattern
  = Some (default [] (registry_get (events (dev w)) pattern) ++ [callback]) /\
  (other <> pattern ->
   registry_get (events (dev w')) other = registry_get (events (dev w)) other).
Proof.
  cbv zeta. simpl. split.
  - apply registry_get_append_eq.
  - intros H. by apply registry_get_append_ne.
Qed.

Lemma exec_events_grow w o key hs :
  registry_get (events (dev w)) key = Some hs ->
  exists more, registry_get (events (dev (fst (exec w o)))) key = Some (hs ++ more).
Proof.
  intros H. rewrite exec_events.
  destruct o; try (exists []; by rewrite app_nil_r).
  destruct (String.eqb ev key) eqn:E.
  - apply String.eqb_eq in E. subst ev.
    rewrite registry_get_append_eq, H. simpl. eauto.
  - apply String.eqb_neq in E.
    rewrite registry_get_append_ne by done. exists []. by rewrite app_nil_r.
Qed.

(** X3: registration is append-only: through any calls, the handlers
    found under a pattern stay under it, in their order and at the
    front; no call removes or reorders a handler. *)
Theorem handlers_never_removed (w : World) (os : list op) (pattern : string)
    (hs : list coro) :
  registry_get (events (dev w)) pattern = Some hs ->
  exists more,
    registry_get (events (dev (exec_all w os))) pattern = Some (hs ++ more).
Proof.
  unfold exec_all. revert w hs.
  induction os as [|o os IH]; intros w hs H; simpl.
  - exists []. by rewrite app_nil_r.
  - destruct (exec_events_grow w o _ _ H) as [m1 H1].
    destruct (IH _ _ H1) as [m2 H2].
    exists (m1 ++ m2). by rewrite app_assoc.
Qed.

Lemma handlers_never_removed_witness :
  let w := fst (on (init "nav" 0) "nav/*" 1) in
  registry_get (events (dev w)) "nav/*" = Some [1] /\
  exists more,
    registry_get (events (dev (exec_all w [Start; On "nav/*" 2; Stop]))) "nav/*"
    = Some ([1] ++ more).
Proof.
  assert (H : registry_get (events (dev (fst (on (init "nav" 0) "nav/*" 1)))) "nav/*"
              = Some [1]) by reflexivity.
  split; [exact H|].
  exact (handlers_never_removed _ [Start; On "nav/*" 2; Stop] "nav/*" [1] H).
Defined.

Lemma callbacks_for_app ev d l1 l2 :
  callbacks_for ev d (l1 ++ l2) = callbacks_for ev d l1 ++ callbacks_for ev d l2.
Proof. unfold callbacks_for. apply map_app. Qed.

Lemma callbacks_of_append r key cb packet :
  callbacks_of (registry_append r key cb) packet ≡ₚ
  callbacks_of r packet
  ++ (if Fnmatch.fnmatch (event packet) key
      then [Callback cb (event packet) (data packet)] else []).
Proof.
  induction r as [|[k cbs] r IH]; simpl.
  - rewrite app_nil_r. by destruct (Fnmatch.fnmatch (event packet) key).
  - destruct (String.eqb k key) eqn:E; simpl.
    + apply String.eqb_eq in E. subst k.
      destruct (Fnmatch.fnmatch (event packet) key).
      * rewrite callbacks_for_app. simpl.
        rewrite <- !app_assoc. apply Permutation_app_head.
        apply Permutation_app_comm.
      * by rewrite app_nil_r.
    + rewrite IH. by rewrite app_assoc.
Qed.

Lemma registry_append_compiles r key cb :
  registry_compiles r -> Fnmatch.compiles key = true ->
  registry_compiles (registry_append r key cb).
Proof.
  intros Hr Hk. induction Hr as [|[k cbs] r Hk' Hr IH]; simpl.
  - by repeat constructor.
  - destruct (String.eqb k key); constructor; auto.
Qed.

(** X4: one registration, one more task: with patterns that compile,
    after [on(pattern)(callback)] a received packet gives rise to the
    tasks it gave rise to before and, when its event matches the
    pattern, to one more, for the new handler; so a callback registered
    twice is scheduled twice. *)
Theorem on_then_receive (w : World) (pattern : string) (callback : coro)
    (packet : Packet) :
  registry_compiles (events (dev w)) ->
  Fnmatch.compiles pattern = true ->
  let w' := fst (on w pattern callback) in
  registry_compiles (events (dev w')) /\
  created_by w' (_receive_task w' [packet]) ≡ₚ
  created_by w (_receive_task w [packet])
  ++ (if Fnmatch.fnmatch (event packet) pattern
      then [Callback callback (event packet) (data packet)] else []).
Proof.
  intros Hc Hk. cbv zeta.
  assert (Hc' : registry_compiles (events (dev (fst (on w pattern callback))))).
  { simpl. by apply registry_append_compiles. }
  split; [done|].
  rewrite (created_by_app _ _ _ (proj2 (_receive_task_created _ [packet] Hc'))).
  rewrite (created_by_app _ _ _ (proj2 (_receive_task_created _ [packet] Hc))).
  simpl. rewrite !app_nil_r. apply callbacks_of_append.
Qed.

Lemma on_then_receive_witness :
  let w := fst (on (init "base" 0) "nav/*" 1) in
  let packet := mkPacket "nav/heading" (PInt 42) in
  registry_compiles (events (dev w)) /\
  Fnmatch.compiles "nav/[a-h]*" = true /\
  created_by (fst (on w "nav/[a-h]*" 1)) (_receive_task (fst (on w "nav/[a-h]*" 1)) [packet])
  ≡ₚ [Callback 1 "nav/heading" (PInt 42); Callback 1 "nav/heading" (PInt 42)].
Proof.
  cbv zeta.
  set (w := fst (on (init "base" 0) "nav/*" 1)).
  assert (Hc : registry_compiles (events (dev w))) by repeat constructor.
  assert (Hk : Fnmatch.compiles "nav/[a-h]*" = true) by reflexivity.
  split; [exact Hc|]. split; [exact Hk|].
  exact (proj2 (on_then_receive w "nav/[a-h]*" 1 (mkPacket "nav/heading" (PInt 42))
                  Hc Hk)).
Defined.

(** ** Starting, stopping, running *)

Lemma fold_create_task_tasks (f : ref -> Task) (l : list ref) w :
  tasks (fold_left (fun acc x => create_task acc (f x)) l w) = tasks w ++ map f l.
Proof.
  revert w. induction l as [|x l IH]; intros w; simpl.
  - by rewrite app_nil_r.
  - rewrite IH. simpl. by rewrite <- app_assoc.
Qed.

Lemma fold_create_task_rest (f : ref -> Task) (l : list ref) w :
  store (fold_left (fun acc x => create_task acc (f x)) l w) = store w /\
  sent (fold_left (fun acc x => create_task acc (f x)) l w) = sent w /\
  threads (fold_left (fun acc x => create_task acc (f x)) l w) = threads w.
Proof.
  revert w. induction l as [|x l IH]; intros w; simpl; [done|].
  destruct (IH (create_task w (f x))) as (-> & -> & ->). done.
Qed.

Lemma _thread_target_tasks w :
  tasks (_thread_target w) =
  tasks w ++ [SendTask; ReceiveTask]
  ++ map SerialReadTask (map_to_list (_serial_devices (dev w))).*2.
Proof.
  unfold _thread_target. rewrite fold_create_task_tasks. simpl.
  by rewrite <- !app_assoc.
Qed.

Lemma start_tasks w :
  _thread (dev w) = None ->
  tasks (fst (start w)) =
  tasks w ++ [SendTask; ReceiveTask]
  ++ map SerialReadTask (map_to_list (_serial_devices (dev w))).*2.
Proof. intros H. unfold start. rewrite H. simpl. by rewrite _thread_target_tasks. Qed.

Lemma in_serial_read_tasks (m : gmap string ref) r :
  In (SerialReadTask r) (map SerialReadTask (map_to_list m).*2) <->
  exists p, m !! p = Some r.
Proof.
  rewrite in_map_iff. split.
  - intros (r' & [= ->] & Hin).
    apply list_elem_of_In, list_elem_of_fmap in Hin as ([p r'] & -> & Hin).
    apply elem_of_map_to_list in Hin. eauto.
  - intros (p & Hp). exists r. split; [done|].
    apply list_elem_of_In, list_elem_of_fmap. exists (p, r). split; [done|].
    by apply elem_of_map_to_list.
Qed.

(** X5: a successful [start] puts on the loop, after the tasks already
    there, the send loop, the receive loop and a read loop for the
    transport of each binding of the registry, and nothing else: a
    transport has a read loop exactly when the registry binds it, and
    there are as many read loops as bindings.  A transport attached
    later, by [create_serial] or [link_serial], gets no task. *)
Theorem start_creates_loops (w : World) (r : ref) (path enc : string) :
  _thread (dev w) = None ->
  let w' := fst (start w) in
  take 2 (created_by w w') = [SendTask; ReceiveTask] /\
  (In (SerialReadTask r) (created_by w w') <->
   exists p, _serial_devices (dev w) !! p = Some r) /\
  List.length (created_by w w') = (2 + size (_serial_devices (dev w)))%nat /\
  tasks (fst (create_serial w' path enc)) = tasks w' /\
  tasks (fst (link_serial w' r)) = tasks w'.
Proof.
  intros H. cbv zeta.
  rewrite (created_by_app _ _ _ (start_tasks w H)).
  split; [done|]. split; [|split; [|split]].
  - simpl. rewrite <- in_serial_read_tasks. split; [|auto].
    intros [|[|]]; done.
  - simpl. by rewrite length_map, length_fmap, length_map_to_list.
  - done.
  - unfold link_serial. by destruct (store (start w).1 !! r).
Qed.

Lemma start_creates_loops_witness :
  let w := fst (create_serial (init "link" 0) "/dev/ttyACM0" "json") in
  _thread (dev w) = None /\
  take 2 (created_by w (fst (start w))) = [SendTask; ReceiveTask] /\
  List.length (created_by w (fst (start w))) = 3%nat.
Proof.
  cbv zeta.
  set (w := fst (create_serial (init "link" 0) "/dev/ttyACM0" "json")).
  assert (H : _thread (dev w) = None) by reflexivity.
  pose proof (start_creates_loops w 0 "" "" H) as F. cbv zeta in F.
  destruct F as (F1 & _ & F2 & _).
  split; [exact H|]. split; [exact F1|].
  rewrite F2. subst w. simpl.
  rewrite map_size_insert_None by apply lookup_empty.
  by rewrite map_size_empty.
Defined.

Lemma start_dev w :
  _thread (dev w) = None ->
  dev (fst (start w)) = set_thread (dev w) (Some (threads w)) /\
  store (fst (start w)) = store w /\ sent (fst (start w)) = sent w.
Proof.
  intros H. unfold start. rewrite H. simpl.
  rewrite _thread_target_dev. unfold _thread_target.
  destruct (fold_create_task_rest SerialReadTask
              (map_to_list (_serial_devices
                 (dev (create_task (create_task
                    (mkWorld (set_thread (dev w) (Some (threads w))) (store w)
                       (tasks w) (sent w) (S (threads w))) SendTask) ReceiveTask)))).*2
              (create_task (create_task
                 (mkWorld (set_thread (dev w) (Some (threads w))) (store w)
                    (tasks w) (sent w) (S (threads w))) SendTask) ReceiveTask))
    as (-> & -> & _).
  done.
Qed.

(** X7: [run] on a device that is already running raises "device
    already running" and leaves it as it was, whatever happens next: the
    failed [start] is no [KeyboardInterrupt], so [stop] is not entered.
    On a stopped device [run] starts it and holds the caller in the join
    of the new thread; an interrupt there takes [run] into [stop] with
    the handle set; and when the thread ends, [run] returns with the
    handle still set, so that a [start] after it raises "device already
    running" although no thread runs. *)
Theorem run_behaviour (w : World) (ev : run_event) (rest : list Task) :
  (_thread (dev w) <> None ->
   run w ev = (w, RunRaised (RuntimeError "device already running"))) /\
  (_thread (dev w) = None ->
   run w StillJoined = (fst (start w), RunJoining (threads w)) /\
   run w Interrupt = (fst (start w), RunStopping (threads w)) /\
   _thread (dev (fst (start w))) = Some (threads w) /\
   let w' := fst (run w (ThreadEnded rest)) in
   snd (run w (ThreadEnded rest)) = RunReturned /\
   tasks w' = rest /\
   _thread (dev w') = Some (threads w) /\
   start w' = (w', Raised (RuntimeError "device already running"))).
Proof.
  destruct (_thread (dev w)) as [th|] eqn:E.
  - split; [|done]. intros _. unfold run, start. by rewrite E.
  - split; [done|]. intros _.
    assert (Hs : start w = (fst (start w), Returned)).
    { unfold start. by rewrite E. }
    destruct (start_dev w E) as (Hd & Hst & Hse).
    assert (Hw : wait (fst (start w)) = (fst (start w), Joining (threads w))).
    { unfold wait. by rewrite Hd. }
    assert (Hr : forall e, run w e =
              match e with
              | StillJoined => (fst (start w), RunJoining (threads w))
              | ThreadEnded ts => (set_tasks (fst (start w)) ts, RunReturned)
              | Interrupt => (fst (start w), RunStopping (threads w))
              end).
    { intros e. unfold run. rewrite Hs, Hw. by destruct e. }
    rewrite !Hr. cbv zeta. cbn [fst snd].
    split; [done|]. split; [done|]. split; [by rewrite Hd|].
    split; [done|]. split; [done|].
    assert (Hh : _thread (dev (set_tasks (fst (start w)) rest)) = Some (threads w)).
    { unfold set_tasks. cbn [dev]. by rewrite Hd. }
    split; [done|].
    remember (set_tasks (fst (start w)) rest) as w' eqn:Ew'.
    unfold start. by rewrite Hh.
Qed.

Lemma run_behaviour_witness :
  let w0 := init "link" 0 in
  let w1 := fst (start w0) in
  _thread (dev w1) <> None /\
  run w1 Interrupt = (w1, RunRaised (RuntimeError "device already running")) /\
  _thread (dev w0) = None /\
  snd (run w0 (ThreadEnded [])) = RunReturned /\
  snd (start (fst (run w0 (ThreadEnded []))))
  = Raised (RuntimeError "device already running").
Proof.
  cbv zeta.
  assert (H1 : _thread (dev (fst (start (init "link" 0)))) <> None)
    by (vm_compute; discriminate).
  assert (H0 : _thread (dev (init "link" 0)) = None) by reflexivity.
  pose proof (proj2 (run_behaviour (init "link" 0) StillJoined []) H0) as F.
  cbv zeta in F. destruct F as (_ & _ & _ & F1 & _ & _ & F2).
  split; [exact H1|].
  split; [exact (proj1 (run_behaviour (fst (start (init "link" 0))) Interrupt []) H1)|].
  split; [exact H0|]. split; [exact F1|].
  by rewrite F2.
Defined.


(** ** Patterns without glob characters *)

Lemma plain_char_spec c :
  plain_char c = true <-> c <> "*"%char /\ c <> "?"%char /\ c <> "["%char.
Proof.
  unfold plain_char. rewrite !andb_true_iff, !negb_true_iff, !Ascii.eqb_neq. tauto.
Qed.

Lemma re_match_plain pat s :
  forallb plain_char pat = true ->
  Fnmatch.re_match (Fnmatch.translate pat) s = true <-> s = pat.
Proof.
  revert s. induction pat as [|c pat IH]; intros s; simpl.
  - intros _. destruct s; split; try done.
  - intros H. apply andb_true_iff in H as [Hc Hp].
    apply plain_char_spec in Hc as (H1 & H2 & H3).
    rewrite translate_char by done. simpl.
    destruct s as [|a s]; [split; done|].
    rewrite andb_true_iff, Ascii.eqb_eq, (IH s Hp).
    split; [intros [-> ->]; done|intros [= -> ->]; done].
Qed.

Lemma list_ascii_of_string_inj s1 s2 :
  list_ascii_of_string s1 = list_ascii_of_string s2 -> s1 = s2.
Proof.
  intros H. rewrite <- (string_of_list_ascii_of_string s1),
                    <- (string_of_list_ascii_of_string s2). by rewrite H.
Qed.

Lemma fnmatch_plain e pattern :
  plain pattern = true ->
  Fnmatch.fnmatch e pattern = String.eqb pattern e.
Proof.
  intros H. unfold Fnmatch.fnmatch, Fnmatch.fnmatchcase, Fnmatch.normcase.
  pose proof (re_match_plain _ (list_ascii_of_string e) H) as Hm.
  destruct (String.eqb pattern e) eqn:E.
  - apply String.eqb_eq in E. subst e. by apply Hm.
  - apply String.eqb_neq in E.
    destruct (Fnmatch.re_match _ _) eqn:E'; [|done].
    exfalso. apply E. symmetry. apply list_ascii_of_string_inj. by apply Hm.
Qed.

Lemma plain_compiles pattern :
  plain pattern = true -> Fnmatch.compiles pattern = true.
Proof.
  unfold plain, Fnmatch.compiles, Fnmatch.normcase.
  induction (list_ascii_of_string pattern) as [|c pat IH]; simpl; [done|].
  intros H. apply andb_true_iff in H as [Hc Hp].
  apply plain_char_spec in Hc as (H1 & H2 & H3).
  rewrite translate_char by done. simpl. auto.
Qed.

Lemma callbacks_of_absent r packet :
  Forall (fun kv => plain kv.1 = true) r ->
  ~ In (event packet) r.*1 ->
  callbacks_of r packet = [].
Proof.
  induction r as [|[k cbs] r IH]; simpl; [done|].
  intros Hp Hin. apply Forall_cons in Hp as [Hk Hp]. simpl in Hk.
  rewrite (fnmatch_plain _ _ Hk).
  destruct (String.eqb k (event packet)) eqn:E.
  - apply String.eqb_eq in E. exfalso. apply Hin. by left.
  - apply IH; [done|]. intros H. apply Hin. by right.
Qed.

Lemma callbacks_of_plain r packet :
  Forall (fun kv => plain kv.1 = true) r ->
  NoDup r.*1 ->
  callbacks_of r packet =
  match registry_get r (event packet) with
  | Some callbacks => callbacks_for (event packet) (data packet) callbacks
  | None => []
  end.
Proof.
  induction r as [|[k cbs] r IH]; simpl; [done|].
  intros Hp Hnd. apply Forall_cons in Hp as [Hk Hp]. simpl in Hk.
  apply NoDup_cons in Hnd as [Hnk Hnd].
  rewrite (fnmatch_plain _ _ Hk).
  destruct (String.eqb k (event packet)) eqn:E.
  - apply String.eqb_eq in E. subst k.
    rewrite callbacks_of_absent; [by rewrite app_nil_r|done|].
    intros H. apply Hnk. by apply list_elem_of_In.
  - by apply IH.
Qed.

(** X9: for a pattern without any of the characters [*], [?] and
    the opening bracket, the matching of the network dispatch is
    equality of strings; hence over a registry of such patterns the
    serial read loop and the network receive loop create the same tasks,
    in the same order, for the same packets. *)
Theorem plain_patterns_dispatch_alike (w : World) (r : ref) (ser : SerialDevice)
    (packets : list Packet) (e pattern : string) :
  store w !! r = Some ser ->
  NoDup (sd_events ser).*1 ->
  Forall (fun kv => plain kv.1 = true) (sd_events ser) ->
  let w' := set_dev w (set_events (dev w) (sd_events ser)) in
  (plain pattern = true -> Fnmatch.fnmatch e pattern = String.eqb pattern e) /\
  created_by w (_serial_read_task w r packets)
  = created_by w' (_receive_task w' packets).
Proof.
  intros Hr Hnd Hp. cbv zeta. split; [apply fnmatch_plain|].
  assert (Hc : registry_compiles
                 (events (dev (set_dev w (set_events (dev w) (sd_events ser)))))).
  { simpl. eapply Forall_impl; [exact Hp|]. intros kv. apply plain_compiles. }
  rewrite (created_by_app _ _ _ (_serial_read_task_tasks w r ser packets Hr)).
  rewrite (created_by_app _ _ _ (proj2 (_receive_task_created _ packets Hc))).
  simpl. apply flat_map_ext. intros packet.
  by rewrite callbacks_of_plain.
Qed.

Lemma plain_patterns_dispatch_alike_witness :
  let ser := mkSerialDevice "/dev/ttyACM0" "json" 0 [("test", [1]); ("imu", [2; 3])] in
  let w := set_store (init "link" 0) {[ 0 := ser ]} in
  let packets := [mkPacket "imu" (PInt 1); mkPacket "te*" PNone; mkPacket "test" PNone] in
  store w !! 0 = Some ser /\
  NoDup (sd_events ser).*1 /\
  Forall (fun kv => plain kv.1 = true) (sd_events ser) /\
  created_by w (_serial_read_task w 0 packets)
  = created_by (set_dev w (set_events (dev w) (sd_events ser)))
      (_receive_task (set_dev w (set_events (dev w) (sd_events ser))) packets).
Proof.
  cbv zeta.
  set (ser := mkSerialDevice "/dev/ttyACM0" "json" 0 [("test", [1]); ("imu", [2; 3])]).
  assert (Hr : store (set_store (init "link" 0) {[ 0 := ser ]}) !! 0 = Some ser)
    by apply lookup_singleton_eq.
  assert (Hnd : NoDup (sd_events ser).*1).
  { simpl. apply NoDup_cons. split; [|apply NoDup_singleton].
    intros H. apply list_elem_of_singleton in H. discriminate. }
  assert (Hp : Forall (fun kv => plain kv.1 = true) (sd_events ser)).
  { repeat constructor. }
  split; [exact Hr|]. split; [exact Hnd|]. split; [exact Hp|].
  exact (proj2 (plain_patterns_dispatch_alike _ 0 ser _ "" "" Hr Hnd Hp)).
Defined.

(** ** Publishing and subscribing *)

Lemma list_ascii_of_string_app s1 s2 :
  list_ascii_of_string (s1 ++ s2)%string
  = list_ascii_of_string s1 ++ list_ascii_of_string s2.
Proof. induction s1 as [|c s1 IH]; simpl; [done|]. by rewrite IH. Qed.

Lemma glob_plain_prefix pre pat s :
  forallb plain_char pre = true -> glob pat s -> glob (pre ++ pat) (pre ++ s).
Proof.
  induction pre as [|c pre IH]; simpl; [done|].
  intros H Hg. apply andb_true_iff in H as [Hc Hp].
  apply plain_char_spec in Hc as (H1 & H2 & H3).
  apply glob_char; auto.
Qed.

Lemma glob_star_all s : glob ["*"%char] s.
Proof.
  rewrite <- (app_nil_r s). apply glob_star. constructor.
Qed.

(** X10: what a device publishes reaches the subscribers of its name:
    when the name has no glob character, the packet of any
    [publish(topic, data)] of the device, received by a device whose
    patterns compile and whose registry holds a handler under the name
    followed by [/*], schedules that handler on the name, a slash and
    the topic, with the data. *)
Theorem publish_reaches_name_subscribers (a b : World) (topic : string) (d : pyval)
    (handlers : list coro) (handler : coro) (packets : list Packet) :
  plain (name (dev a)) = true ->
  registry_compiles (events (dev b)) ->
  In (name (dev a) ++ "/*", handlers)%string (events (dev b)) ->
  In handler handlers ->
  let p := mkPacket (name (dev a) ++ "/" ++ topic)%string d in
  snd (publish a topic d) = Awaitable (QueuePut p) /\
  (In p packets ->
   In (Callback handler (name (dev a) ++ "/" ++ topic)%string d)
      (created_by b (_receive_task b packets))).
Proof.
  intros Hn Hc Hin Hh. cbv zeta. split; [reflexivity|].
  intros Hp.
  apply (in_created_by_receive b packets _ Hc).
  eexists _, _, handlers, handler.
  split; [exact Hp|]. split; [exact Hin|]. split; [|done].
  unfold glob_matches. simpl.
  rewrite !list_ascii_of_string_app. simpl.
  apply glob_plain_prefix; [done|].
  apply glob_char; try discriminate.
  apply glob_star_all.
Qed.

Lemma publish_reaches_name_subscribers_witness :
  let a := init "nav" 0 in
  let b := fst (on (fst (on (init "base" 1) "cam[0-9]" 3)) "nav/*" 4) in
  plain (name (dev a)) = true /\
  registry_compiles (events (dev b)) /\
  In ("nav" ++ "/*", [4])%string (events (dev b)) /\
  In 4 [4] /\
  In (Callback 4 "nav/heading" (PInt 42))
     (created_by b (_receive_task b [mkPacket "nav/heading" (PInt 42)])).
Proof.
  cbv zeta.
  set (b := fst (on (fst (on (init "base" 1) "cam[0-9]" 3)) "nav/*" 4)).
  assert (H1 : plain (name (dev (init "nav" 0))) = true) by reflexivity.
  assert (Hc : registry_compiles (events (dev b))) by repeat constructor.
  assert (H2 : In ("nav" ++ "/*", [4])%string (events (dev b)))
    by (right; left; reflexivity).
  assert (H3 : In 4 [4]) by (left; reflexivity).
  split; [exact H1|]. split; [exact Hc|]. split; [exact H2|]. split; [exact H3|].
  apply (proj2 (publish_reaches_name_subscribers (init "nav" 0) b "heading" (PInt 42)
                  [4] 4 [mkPacket "nav/heading" (PInt 42)] H1 Hc H2 H3)).
  left. reflexivity.
Defined.

(** X11: on a device whose patterns compile, a handler registered under
    the pattern [*] is scheduled for every packet the device receives,
    whatever its event, the empty string included. *)
Theorem star_receives_everything (w : World) (packets : list Packet) (packet : Packet)
    (handlers : list coro) (handler : coro) :
  registry_compiles (events (dev w)) ->
  In ("*", handlers) (events (dev w)) ->
  In handler handlers ->
  In packet packets ->
  In (Callback handler (event packet) (data packet))
     (created_by w (_receive_task w packets)).
Proof.
  intros Hc Hin Hh Hp.
  apply (in_created_by_receive w packets _ Hc).
  exists packet, "*", handlers, handler.
  split; [done|]. split; [done|]. split; [|done].
  apply glob_star_all.
Qed.

Lemma star_receives_everything_witness :
  let w := fst (on (init "log" 0) "*" 9) in
  registry_compiles (events (dev w)) /\
  In ("*", [9]) (events (dev w)) /\ In 9 [9] /\
  In (mkPacket "" PNone) [mkPacket "" PNone] /\
  In (Callback 9 "" PNone) (created_by w (_receive_task w [mkPacket "" PNone])).
Proof.
  cbv zeta.
  set (w := fst (on (init "log" 0) "*" 9)).
  assert (Hc : registry_compiles (events (dev w))) by repeat constructor.
  assert (H1 : In ("*", [9]) (events (dev w))) by (left; reflexivity).
  assert (H2 : In 9 [9]) by (left; reflexivity).
  assert (H3 : In (mkPacket "" PNone) [mkPacket "" PNone]) by (left; reflexivity).
  split; [exact Hc|]. split; [exact H1|]. split; [exact H2|]. split; [exact H3|].
  exact (star_receives_everything _ _ _ _ _ Hc H1 H2 H3).
Defined.

(** ** Serial transports *)

Lemma exec_loop w o : _loop (dev (fst (exec w o))) = _loop (dev w).
Proof.
  destruct o; cbn [exec]; try reflexivity.
  - unfold link_serial. by destruct (store w !! serial_device).
  - unfold wait. by destruct (_thread (dev w)).
  - unfold start. destruct (_thread (dev w)); [done|].
    simpl. by rewrite _thread_target_dev.
  - unfold stop. by destruct (_thread (dev w)).
Qed.

Lemma exec_store_other w o :
  (forall path enc, o <> CreateSerial path enc) ->
  (forall r, o <> LinkSerial r) ->
  store (fst (exec w o)) = store w /\
  _serial_devices (dev (fst (exec w o))) = _serial_devices (dev w).
Proof.
  intros H1 H2.
  destruct o as [topic d|ev cb|f|dur f|dur|path enc|sd| | |]; cbn [exec].
  all: try (split; reflexivity).
  - by specialize (H1 path enc).
  - by specialize (H2 sd).
  - unfold wait. by destruct (_thread (dev w)).
  - unfold start. destruct (_thread (dev w)) eqn:E; [done|].
    destruct (start_dev w E) as (Hd & Hs & _).
    unfold start in Hd, Hs. rewrite E in Hd, Hs. simpl in *.
    by rewrite Hd, Hs.
  - unfold stop. by destruct (_thread (dev w)).
Qed.

Lemma exec_serial_wf w o : serial_wf w -> serial_wf (fst (exec w o)).
Proof.
  intros Hwf p r.
  destruct o as [topic d|ev cb|f|dur f|dur|path enc|serial_device| | |].
  all: try (match goal with |- context [exec ?v ?o] =>
              destruct (exec_store_other v o) as [-> ->];
              [intros; discriminate|intros; discriminate|];
              rewrite exec_loop; apply Hwf end).
  - (* create_serial *)
    cbn [exec]. simpl.
    destruct (decide (path = p)) as [->|Hne].
    + rewrite lookup_insert_eq. intros [= <-].
      rewrite lookup_insert_eq. eauto.
    + rewrite lookup_insert_ne by done. intros Hp.
      destruct (Hwf p r Hp) as (sd & Hsd & Hpath & Hloop).
      exists sd. split; [|done].
      rewrite lookup_insert_ne; [done|].
      intros <-. by rewrite create_serial_fresh in Hsd.
  - (* link_serial *)
    cbn [exec]. unfold link_serial.
    destruct (store w !! serial_device) as [sd0|] eqn:E; [|apply Hwf].
    simpl. destruct (decide (usb_path sd0 = p)) as [<-|Hne].
    + rewrite lookup_insert_eq. intros [= <-].
      rewrite lookup_insert_eq. eauto.
    + rewrite lookup_insert_ne by done. intros Hp.
      destruct (Hwf p r Hp) as (sd & Hsd & Hpath & Hloop).
      exists sd. split; [|done].
      rewrite lookup_insert_ne; [done|].
      intros <-. rewrite E in Hsd. injection Hsd as ->. done.
Qed.

(** X12: through any calls, every transport the registry binds is an
    object of the store, is bound under its own path and carries the
    device's event loop, provided this was so to begin with, as it is
    for a new device. *)
Theorem serial_registry_wf (w : World) (os : list op) :
  serial_wf w -> serial_wf (exec_all w os).
Proof.
  unfold exec_all. revert w.
  induction os as [|o os IH]; intros w H; simpl; [done|].
  by apply IH, exec_serial_wf.
Qed.

Lemma serial_registry_wf_witness :
  serial_wf (init "link" 0) /\
  serial_wf (exec_all (init "link" 0)
               [CreateSerial "/dev/ttyACM0" "json"; Start;
                CreateSerial "/dev/ttyACM0" "vesc"; LinkSerial 0]).
Proof.
  assert (H : serial_wf (init "link" 0)).
  { intros p r Hp. simpl in Hp. by rewrite lookup_empty in Hp. }
  split; [exact H|].
  exact (serial_registry_wf (init "link" 0) _ H).
Defined.

(** X13: linking a transport a second time changes nothing, and
    neither does linking the transport [create_serial] has just made:
    it already carries the device's loop and is already bound under its
    path. *)
Theorem link_serial_again (w : World) (r : ref) (path enc : string) :
  fst (link_serial (fst (link_serial w r)) r) = fst (link_serial w r) /\
  (let w' := fst (create_serial w path enc) in
   link_serial w' (fresh (dom (store w))) = (w', Returned)).
Proof.
  split.
  - unfold link_serial at 2 3.
    destruct (store w !! r) as [sd|] eqn:E; simpl.
    + unfold link_serial. simpl. rewrite lookup_insert_eq. simpl.
      by rewrite !insert_insert_eq.
    + unfold link_serial. by rewrite E.
  - cbv zeta. unfold link_serial. simpl. rewrite lookup_insert_eq. simpl.
    by rewrite !insert_insert_eq.
Qed.

(** X14: a transport that [create_serial] has displaced from its path,
    and that no other path binds, gets no read loop when the device is
    started afterwards; the transport that took its place does. *)
Theorem displaced_transport_unread (w : World) (path enc : string) (old : ref) :
  _thread (dev w) = None ->
  _serial_devices (dev w) !! path = Some old ->
  is_Some (store w !! old) ->
  (forall q, _serial_devices (dev w) !! q = Some old -> q = path) ->
  let w1 := fst (create_serial w path enc) in
  let w2 := fst (start w1) in
  ~ In (SerialReadTask old) (created_by w1 w2) /\
  In (SerialReadTask (fresh (dom (store w)))) (created_by w1 w2).
Proof.
  intros Ht Hold Hst Honly. cbv zeta.
  assert (Ht1 : _thread (dev (fst (create_serial w path enc))) = None) by done.
  rewrite (created_by_app _ _ _ (start_tasks _ Ht1)).
  assert (Hne : old <> fresh (dom (store w))).
  { intros ->. destruct Hst as [sd Hsd]. by rewrite create_serial_fresh in Hsd. }
  split.
  - intros [H|[H|H]]; [done|done|].
    apply in_serial_read_tasks in H as [q Hq]. simpl in Hq.
    destruct (decide (path = q)) as [<-|Hq'].
    + rewrite lookup_insert_eq in Hq. by injection Hq as <-.
    + rewrite lookup_insert_ne in Hq by done. by apply Honly in Hq.
  - right. right. apply in_serial_read_tasks. exists path. simpl.
    apply lookup_insert_eq.
Qed.

Lemma displaced_transport_unread_witness :
  let w := fst (create_serial (init "link" 0) "/dev/ttyACM0" "json") in
  let old := fresh (dom (store (init "link" 0))) in
  let w1 := fst (create_serial w "/dev/ttyACM0" "vesc") in
  _thread (dev w) = None /\
  _serial_devices (dev w) !! "/dev/ttyACM0" = Some old /\
  is_Some (store w !! old) /\
  ~ In (SerialReadTask old) (created_by w1 (fst (start w1))).
Proof.
  cbv zeta.
  set (w := fst (create_serial (init "link" 0) "/dev/ttyACM0" "json")).
  set (old := fresh (dom (store (init "link" 0)))).
  assert (H1 : _thread (dev w) = None) by reflexivity.
  assert (H2 : _serial_devices (dev w) !! "/dev/ttyACM0" = Some old)
    by apply lookup_insert_eq.
  assert (H3 : is_Some (store w !! old)).
  { eexists. apply lookup_insert_eq. }
  assert (H4 : forall q, _serial_devices (dev w) !! q = Some old -> q = "/dev/ttyACM0").
  { intros q. simpl. destruct (decide ("/dev/ttyACM0" = q)) as [<-|Hq]; [done|].
    rewrite lookup_insert_ne by done. by rewrite lookup_empty. }
  split; [exact H1|]. split; [exact H2|]. split; [exact H3|].
  exact (proj1 (displaced_transport_unread w "/dev/ttyACM0" "vesc" old H1 H2 H3 H4)).
Defined.

(** ** What the loops and the calls leave alone *)

Lemma _serial_read_task_frame w r packets :
  dev (_serial_read_task w r packets) = dev w /\
  store (_serial_read_task w r packets) = store w /\
  sent (_serial_read_task w r packets) = sent w.
Proof.
  unfold _serial_read_task. revert w.
  induction packets as [|p ps IH]; intros w; simpl; [done|].
  destruct (IH (_serial_read_round w r p)) as (-> & -> & ->).
  unfold _serial_read_round.
  destruct (store w !! r) as [ser|]; [|done].
  destruct (registry_get (sd_events ser) (event p)) as [cbs|]; [|done].
  by destruct (schedule_frame w cbs (event p) (data p)) as (-> & -> & -> & _).
Qed.

Lemma _receive_task_frame w packets :
  dev (_receive_task w packets) = dev w /\
  store (_receive_task w packets) = store w /\
  sent (_receive_task w packets) = sent w.
Proof.
  unfold _receive_task.
  destruct (_receive_run_frame w packets) as (-> & -> & -> & _). done.
Qed.

Lemma _serial_read_task_none w r packets :
  store w !! r = None -> _serial_read_task w r packets = w.
Proof.
  intros E. unfold _serial_read_task.
  induction packets as [|p ps IH]; simpl; [done|].
  assert (_serial_read_round w r p = w) as ->; [|done].
  unfold _serial_read_round. by rewrite E.
Qed.

(** X15: receiving only creates tasks: however many packets the
    receive loop or a serial read loop takes, the device (its handlers,
    its outbound queue, its serial registry, its thread handle), the
    transports and what was sent are as before, and the tasks that were
    on the loop are still there, in front. *)
Theorem receiving_only_schedules (w : World) (r : ref) (packets : list Packet) :
  let w1 := _receive_task w packets in
  let w2 := _serial_read_task w r packets in
  dev w1 = dev w /\ store w1 = store w /\ sent w1 = sent w /\
  dev w2 = dev w /\ store w2 = store w /\ sent w2 = sent w /\
  tasks w1 = tasks w ++ created_by w w1 /\
  tasks w2 = tasks w ++ created_by w w2.
Proof.
  cbv zeta.
  destruct (_receive_task_frame w packets) as (H1 & H2 & H3).
  destruct (_serial_read_task_frame w r packets) as (H4 & H5 & H6).
  repeat (split; [done|]).
  split.
  - destruct (_receive_run_frame w packets) as (_ & _ & _ & more & H).
    fold (_receive_task w packets) in H.
    by rewrite (created_by_app _ _ _ H).
  - destruct (store w !! r) as [ser|] eqn:E.
    + pose proof (_serial_read_task_tasks w r ser packets E) as H.
      by rewrite (created_by_app _ _ _ H).
    + rewrite (_serial_read_task_none w r packets E).
      unfold created_by. by rewrite drop_all, app_nil_r.
Qed.

Lemma exec_constant w o :
  name (dev (fst (exec w o))) = name (dev w) /\
  _send_queue (dev (fst (exec w o))) = _send_queue (dev w) /\
  sent (fst (exec w o)) = sent w.
Proof.
  destruct o; cbn [exec]; try done.
  - unfold link_serial. by destruct (store w !! serial_device).
  - unfold wait. by destruct (_thread (dev w)).
  - unfold start. destruct (_thread (dev w)) eqn:E; [done|].
    destruct (start_dev w E) as (Hd & _ & Hs).
    unfold start in Hd, Hs. rewrite E in Hd, Hs. simpl in *.
    by rewrite Hd, Hs.
  - unfold stop. by destruct (_thread (dev w)).
Qed.

(** X16: no call of the public interface sends a packet, queues one or
    renames the device: through any calls, [publish] among them, what
    was sent, the outbound queue, the name and the event loop of the
    device are as before.  A packet is queued by awaiting what [publish]
    returned and sent by the send loop, and by nothing else. *)
Theorem calls_never_send (w : World) (os : list op) :
  let w' := exec_all w os in
  sent w' = sent w /\
  _send_queue (dev w') = _send_queue (dev w) /\
  name (dev w') = name (dev w) /\
  _loop (dev w') = _loop (dev w).
Proof.
  cbv zeta. unfold exec_all. revert w.
  induction os as [|o os IH]; intros w; simpl; [done|].
  destruct (IH (fst (exec w o))) as (-> & -> & -> & ->).
  destruct (exec_constant w o) as (-> & -> & ->).
  by rewrite exec_loop.
Qed.

(** ** The periodic task, further *)

Lemma _wrapper_raise env dur rounds k now j :
  fn_raises env (k + j) = true ->
  (forall i, (i < j)%nat -> fn_raises env (k + i) = false) ->
  (j < rounds)%nat ->
  _wrapper env dur rounds k now = _wrapper env dur (S j) k now /\
  List.length (_wrapper env dur rounds k now) = S j /\
  exists a, last (_wrapper env dur rounds k now) = Some a /\
            index a = (k + j)%nat /\ returned a = false.
Proof.
  revert rounds k now. induction j as [|j IH]; intros rounds k now Hr Hb Hlt.
  - rewrite Nat.add_0_r in Hr.
    destruct rounds as [|n]; [lia|]. simpl. rewrite Hr. simpl.
    split; [done|]. split; [done|]. eexists. split; [done|]. simpl.
    by rewrite Nat.add_0_r.
  - destruct rounds as [|n]; [lia|].
    pose proof (Hb 0%nat ltac:(lia)) as H0. rewrite Nat.add_0_r in H0.
    cbn [_wrapper]. rewrite H0.
    destruct (IH n (S k)
                (wake (now + Z.of_N (fn_time env k)) (duration_to_seconds dur)
                   (lag env k)))
      as (He & Hl & a & Ha & Hi & Hret).
    + by rewrite Nat.add_succ_comm.
    + intros i Hi. rewrite Nat.add_succ_comm. apply Hb. lia.
    + lia.
    + cbv zeta. rewrite He. split; [done|].
      rewrite <- He. simpl. rewrite Hl. split; [done|].
      exists a. split; [|by rewrite Hi, Nat.add_succ_comm].
      rewrite <- Ha.
      destruct (_wrapper env dur n (S k) _) eqn:E; [done|]. done.
Qed.

(** X17: an exception of [func] ends the periodic task for good: when
    the call number [k] is the first to raise, the task makes the calls
    up to that one and no call after it, however long the loop is left
    to run; the exception is not caught and the task does not sleep or
    start over. *)
Theorem every_stops_on_exception (env : Env) (dur : duration) (rounds k : nat) (t0 : Z) :
  fn_raises env k = true ->
  (forall i, (i < k)%nat -> fn_raises env i = false) ->
  (k < rounds)%nat ->
  let invs := _wrapper env dur rounds 0 t0 in
  invs = _wrapper env dur (S k) 0 t0 /\
  List.length invs = S k /\
  exists a, last invs = Some a /\ index a = k /\ returned a = false.
Proof.
  intros Hr Hb Hlt. cbv zeta.
  apply (_wrapper_raise env dur rounds 0 t0 k); done.
Qed.

Lemma every_stops_on_exception_witness :
  let env := mkEnv (fun _ => 2%N) (fun k => Nat.eqb k 1) (fun _ => 0%N) in
  fn_raises env 1 = true /\
  (forall i, (i < 1)%nat -> fn_raises env i = false) /\
  (1 < 50)%nat /\
  List.length (_wrapper env (Plain 10) 50 0 0) = 2%nat.
Proof.
  cbv zeta.
  set (env := mkEnv (fun _ => 2%N) (fun k => Nat.eqb k 1) (fun _ => 0%N)).
  assert (H1 : fn_raises env 1 = true) by reflexivity.
  assert (H2 : forall i, (i < 1)%nat -> fn_raises env i = false).
  { intros i Hi. assert (i = 0%nat) as -> by lia. reflexivity. }
  assert (H3 : (1 < 50)%nat) by lia.
  split; [exact H1|]. split; [exact H2|]. split; [exact H3|].
  exact (proj1 (proj2 (every_stops_on_exception env (Plain 10) 50 1 0 H1 H2 H3))).
Defined.

Lemma _wrapper_began env dur rounds k now i a :
  _wrapper env dur rounds k now !! i = Some a ->
  began a = (now + (elapsed env dur (k + i) - elapsed env dur k))%Z.
Proof.
  revert k now i. induction rounds as [|n IH]; intros k now i; simpl; [done|].
  destruct (fn_raises env k).
  - destruct i as [|i]; [|done]. intros [= <-]. simpl.
    rewrite Nat.add_0_r. lia.
  - destruct i as [|i]; simpl.
    + intros [= <-]. simpl. rewrite Nat.add_0_r. lia.
    + intros H. apply IH in H. rewrite H.
      rewrite <- Nat.add_succ_comm. unfold wake. simpl. lia.
Qed.

Lemma elapsed_lower env dur i :
  (Z.of_nat i * duration_to_seconds dur <= elapsed env dur i)%Z /\
  (0 <= elapsed env dur i)%Z.
Proof.
  induction i as [|i [IH1 IH2]]; [simpl; lia|].
  cbn [elapsed]. split; lia.
Qed.

(** X18: the period drifts: the call number [i] of a periodic task
    begins at the time of the first call plus, for each call before, the
    time that call took, the duration slept (none when the duration is
    not positive) and the lateness of the loop; so it begins no sooner
    than [i] durations after the first, and never before it. *)
Theorem every_period_drifts (env : Env) (dur : duration) (rounds i : nat) (t0 : Z)
    (a : Invocation) :
  _wrapper env dur rounds 0 t0 !! i = Some a ->
  began a = (t0 + elapsed env dur i)%Z /\
  (t0 + Z.of_nat i * duration_to_seconds dur <= began a)%Z /\
  (t0 <= began a)%Z.
Proof.
  intros H. apply _wrapper_began in H. simpl in H.
  pose proof (elapsed_lower env dur i). split; [lia|]. lia.
Qed.

Lemma every_period_drifts_witness :
  let env := mkEnv (fun _ => 3%N) (fun _ => false) (fun _ => 1%N) in
  let a := mkInvocation 2 28 31 true in
  _wrapper env (Plain 10) 5 0 0 !! 2%nat = Some a /\
  began a = (0 + elapsed env (Plain 10) 2)%Z.
Proof.
  cbv zeta.
  set (env := mkEnv (fun _ => 3%N) (fun _ => false) (fun _ => 1%N)).
  assert (H : _wrapper env (Plain 10) 5 0 0 !! 2%nat
              = Some (mkInvocation 2 28 31 true)) by reflexivity.
  split; [exact H|].
  exact (proj1 (every_period_drifts env (Plain 10) 5 2 0 _ H)).
Defined.

(** ** Tasks on the loop *)

Lemma exec_tasks_grow w o :
  o <> Stop -> exists more, tasks (fst (exec w o)) = tasks w ++ more.
Proof.
  intros H.
  destruct o as [topic d|ev cb|f|dur f|dur|path enc|sd| | |]; cbn [exec].
  all: try (exists []; by rewrite app_nil_r).
  all: try (eexists; reflexivity).
  all: try done.
  - exists []. rewrite app_nil_r. unfold link_serial. by destruct (store w !! sd).
  - exists []. rewrite app_nil_r. unfold wait. by destruct (_thread (dev w)).
  - unfold start. destruct (_thread (dev w)) eqn:E.
    + exists []. by rewrite app_nil_r.
    + simpl. rewrite _thread_target_tasks. eauto.
Qed.

Lemma exec_all_tasks_grow w os :
  Forall (fun o => o <> Stop) os ->
  exists more, tasks (exec_all w os) = tasks w ++ more.
Proof.
  unfold exec_all. revert w.
  induction os as [|o os IH]; intros w H; simpl.
  - exists []. by rewrite app_nil_r.
  - apply Forall_cons in H as [Ho Hos].
    destruct (exec_tasks_grow w o Ho) as [m1 H1].
    destruct (IH (fst (exec w o)) Hos) as [m2 H2].
    exists (m1 ++ m2). by rewrite H2, H1, app_assoc.
Qed.

(** X19: only [stop] takes tasks off the loop: through calls with no
    [stop] among them the tasks that were on the loop stay, in order and
    in front, whether the device is started or not; and each [task(f)]
    and each [every(duration)(func)] among the calls has put its task on
    the loop, at the call and not at [start]. *)
Theorem tasks_only_grow (w : World) (os : list op) (f : coro) (dur : duration) :
  Forall (fun o => o <> Stop) os ->
  let w' := exec_all w os in
  (exists more, tasks w' = tasks w ++ more) /\
  (In (TaskOp f) os -> In (Background f) (tasks w')) /\
  (In (EveryOp dur f) os -> In (Every f dur) (tasks w')).
Proof.
  intros H. cbv zeta. split; [by apply exec_all_tasks_grow|].
  unfold exec_all. revert w.
  induction os as [|o os IH]; intros w; simpl; [tauto|].
  apply Forall_cons in H as [Ho Hos].
  destruct (IH Hos (fst (exec w o))) as [IH1 IH2].
  destruct (exec_all_tasks_grow (fst (exec w o)) os Hos) as [more Hmore].
  unfold exec_all in Hmore.
  split.
  - intros [->|Hin]; [|auto].
    rewrite Hmore. simpl. apply in_or_app. left. apply in_or_app. right. by left.
  - intros [->|Hin]; [|auto].
    rewrite Hmore. simpl. apply in_or_app. left. apply in_or_app. right. by left.
Qed.

Lemma tasks_only_grow_witness :
  let os := [TaskOp 1; Start; EveryOp (Plain 2) 1; Publish "x" PNone] in
  Forall (fun o => o <> Stop) os /\
  In (Background 1) (tasks (exec_all (init "nav" 0) os)) /\
  In (Every 1 (Plain 2)) (tasks (exec_all (init "nav" 0) os)).
Proof.
  cbv zeta.
  assert (H : Forall (fun o => o <> Stop)
                [TaskOp 1; Start; EveryOp (Plain 2) 1; Publish "x" PNone]).
  { repeat constructor; discriminate. }
  pose proof (tasks_only_grow (init "nav" 0) _ 1 (Plain 2) H) as F.
  cbv zeta in F. destruct F as (_ & F1 & F2).
  split; [exact H|].
  split; [apply F1; left; reflexivity|].
  apply F2. right. right. left. reflexivity.
Defined.

(** ** A pattern that does not compile *)

Lemma _receive_items_bad w before bad hs after ev d :
  registry_compiles before ->
  Fnmatch.compiles bad = false ->
  snd (_receive_items w (before ++ (bad, hs) :: after) ev d)
  = Some Fnmatch.bad_character_range /\
  tasks (fst (_receive_items w (before ++ (bad, hs) :: after) ev d))
  = tasks w ++ flat_map (fun '(key, callbacks) =>
                           if Fnmatch.fnmatch ev key
                           then callbacks_for ev d callbacks else []) before.
Proof.
  intros Hc Hb. revert w.
  induction Hc as [|[key cbs] items Hk Hc IH]; intros w; simpl.
  - unfold Fnmatch.fnmatch_call. rewrite Hb. simpl. by rewrite app_nil_r.
  - simpl in Hk. rewrite (fnmatch_call_ok _ _ Hk).
    destruct (Fnmatch.fnmatch ev key); simpl.
    + destruct (IH (schedule w cbs ev d)) as [-> ->]. split; [done|].
      rewrite schedule_tasks. by rewrite <- app_assoc.
    + apply IH.
Qed.

(** X20: a registered pattern that does not compile ends the receive
    task at the first packet: [fnmatch] raises when the loop over the
    registry comes to it, so the packet is dispatched to the matching
    handlers of the entries before it and to no other, and no later
    packet is dispatched at all. *)
Theorem receive_ends_on_bad_pattern (w : World) (before after : registry)
    (bad : string) (hs : list coro) (packet : Packet) (packets : list Packet) :
  events (dev w) = before ++ (bad, hs) :: after ->
  registry_compiles before ->
  Fnmatch.compiles bad = false ->
  snd (_receive_run w (packet :: packets)) = Some Fnmatch.bad_character_range /\
  created_by w (_receive_task w (packet :: packets)) = callbacks_of before packet.
Proof.
  intros He Hc Hb. unfold _receive_task. simpl.
  pose proof (_receive_items_bad w before bad hs after (event packet) (data packet)
                Hc Hb) as [H1 H2].
  unfold _receive_round. rewrite He.
  destruct (_receive_items w (before ++ (bad, hs) :: after) (event packet)
              (data packet)) as [w' r].
  simpl in *. subst r. simpl. split; [done|]. by apply created_by_app.
Qed.

Lemma receive_ends_on_bad_pattern_witness :
  let w := fst (on (fst (on (fst (on (init "base" 0) "nav/*" 1)) "[z-a]" 2)) "*" 3) in
  let p1 := mkPacket "nav/heading" (PInt 42) in
  let p2 := mkPacket "nav/speed" (PInt 3) in
  events (dev w) = [("nav/*", [1])] ++ ("[z-a]", [2]) :: [("*", [3])] /\
  registry_compiles [("nav/*", [1])] /\
  Fnmatch.compiles "[z-a]" = false /\
  created_by w (_receive_task w [p1; p2]) = [Callback 1 "nav/heading" (PInt 42)].
Proof.
  cbv zeta.
  set (w := fst (on (fst (on (fst (on (init "base" 0) "nav/*" 1)) "[z-a]" 2)) "*" 3)).
  assert (He : events (dev w) = [("nav/*", [1])] ++ ("[z-a]", [2]) :: [("*", [3])])
    by reflexivity.
  assert (Hc : registry_compiles [("nav/*", [1])]) by repeat constructor.
  assert (Hb : Fnmatch.compiles "[z-a]" = false) by reflexivity.
  split; [exact He|]. split; [exact Hc|]. split; [exact Hb|].
  rewrite (proj2 (receive_ends_on_bad_pattern w _ _ _ _ (mkPacket "nav/heading" (PInt 42))
                    [mkPacket "nav/speed" (PInt 3)] He Hc Hb)).
  reflexivity.
Defined.
